(** * uc-mon: identity normaliser, version store and diff statistics

    A shallow embedding of the three core classes of the repository
    ([FilenameNormalizer], [Storage], [Differ]) together with the
    properties stated about them.

    Conventions.
    - JavaScript strings are [string]; every string the normaliser runs its
      regular expressions on comes out of the platform URL parser and is
      therefore ASCII.
    - Plain objects used as dictionaries ([db.targets], [db.scripts],
      [db.scriptVersions]) are [gmap string _], which holds their own
      properties.  The keys of [db.scripts] contain a colon and those of
      [db.scriptVersions] are decimal numbers, so a lookup there finds own
      properties only; [db.targets] is indexed by a domain the caller
      chooses, and a lookup there also finds what every object inherits from
      [Object.prototype] (see [lookup_target]).
    - The ids handed to the operations are numbers: a target id, scan id or
      script id is a [nat], never [undefined].
    - Numeric ids are [nat]; [`${id}`] is stdpp's decimal printer [pretty].
    - [new Date().toISOString()] is a clock reading handed to every
      operation; it is kept as the number of milliseconds it denotes, which is
      what [new Date(ts)] gives back when the store sorts by timestamp.
    - Platform and third-party functions ([new URL], SHA-256, [diffLines],
      prettier) are parameters of the functions that call them. *)

From Stdlib Require Import Ascii.
From stdpp Require Import base gmap strings list fin_maps pretty sorting.

(* ===================================================================== *)
(** * Regular-expression replacement *)
(* ===================================================================== *)

Module Regex.

(** Character classes. *)
Definition in_range (lo hi : nat) (c : ascii) : bool :=
  let n := nat_of_ascii c in (lo <=? n) && (n <=? hi).

(** [\d] *)
Definition is_digit (c : ascii) : bool := in_range 48 57 c.

(** [[a-f0-9]] under the [i] flag *)
Definition is_hex (c : ascii) : bool :=
  is_digit c || in_range 97 102 c || in_range 65 70 c.

(** [\w] *)
Definition is_word (c : ascii) : bool :=
  is_digit c || in_range 97 122 c || in_range 65 90 c || Ascii.eqb c "_".

(** [[.\-_]] *)
Definition is_sep (c : ascii) : bool :=
  Ascii.eqb c "." || Ascii.eqb c "-" || Ascii.eqb c "_".

(** [[\w.]] *)
Definition is_word_or_dot (c : ascii) : bool := is_word c || Ascii.eqb c ".".

(** Canonical form of a character for case-insensitive comparison. *)
Definition upper (c : ascii) : ascii :=
  if in_range 97 122 c then ascii_of_nat (nat_of_ascii c - 32) else c.

Definition eqb_ci (a b : ascii) : bool := Ascii.eqb (upper a) (upper b).

(** String helpers. *)
Fixpoint drop (n : nat) (s : string) : string :=
  match n, s with
  | S k, String _ s' => drop k s'
  | _, _ => s
  end.

Definition head (s : string) : option ascii :=
  match s with
  | String c _ => Some c
  | EmptyString => None
  end.

(** Length of the longest prefix of [s] whose characters satisfy [p]
    (a greedy [p*]). *)
Fixpoint span (p : ascii → bool) (s : string) : nat :=
  match s with
  | String c s' => if p c then S (span p s') else 0
  | EmptyString => 0
  end.

(** The same, stopping after [n] characters (a greedy [p{0,n}]). *)
Fixpoint span_upto (n : nat) (p : ascii → bool) (s : string) : nat :=
  match n, s with
  | S k, String c s' => if p c then S (span_upto k p s') else 0
  | _, _ => 0
  end.

(** [Some rest] when [s] starts with the literal [lit]; [ci] is the [i]
    flag. *)
Fixpoint strip_prefix (ci : bool) (lit s : string) : option string :=
  match lit, s with
  | EmptyString, _ => Some s
  | String a lit', String b s' =>
      if (if ci then eqb_ci a b else Ascii.eqb a b)
      then strip_prefix ci lit' s' else None
  | String _ _, EmptyString => None
  end.

Fixpoint string_forall (p : ascii → bool) (s : string) : bool :=
  match s with
  | String c s' => p c && string_forall p s'
  | EmptyString => true
  end.

(** Does the first (last) character of [s] satisfy [p]?  [false] on the
    empty string. *)
Definition starts_with (p : ascii → bool) (s : string) : bool :=
  match s with
  | String c _ => p c
  | EmptyString => false
  end.

Fixpoint ends_with (p : ascii → bool) (s : string) : bool :=
  match s with
  | EmptyString => false
  | String c EmptyString => p c
  | String _ s' => ends_with p s'
  end.

(** [\b]: exactly one of the two neighbours is a word character; beyond
    either end of the input counts as a non-word character. *)
Definition is_word_opt (c : option ascii) : bool :=
  match c with Some x => is_word x | None => false end.

Definition word_boundary (prev next : option ascii) : bool :=
  xorb (is_word_opt prev) (is_word_opt next).

(** A matcher stands for one regular expression anchored at the current
    position: given the character just before that position (if any) and
    the input from that position on, it returns the length of the match
    the backtracking engine finds there. *)
Definition matcher : Type := option ascii → string → option nat.

(** A matcher that does not look behind. *)
Definition context_free (m : matcher) : Prop := ∀ p q s, m p s = m q s.

(** [s.replace(re, rep)].  [global] is the [g] flag: without it only the
    first match is replaced.  [skip] counts the characters of the current
    match that are still to be consumed.  None of the expressions of this
    program matches the empty string. *)
Fixpoint replace_go (m : matcher) (global : bool) (rep : string)
    (prev : option ascii) (skip : nat) (s : string) : string :=
  match s with
  | EmptyString => EmptyString
  | String c s' =>
      match skip with
      | S k => replace_go m global rep (Some c) k s'
      | O =>
          match m prev s with
          | Some (S k) =>
              rep +:+ (if global then replace_go m global rep (Some c) k s'
                       else drop k s')
          | _ => String c (replace_go m global rep (Some c) 0 s')
          end
      end
  end.

Definition replace (m : matcher) (global : bool) (rep s : string) : string :=
  replace_go m global rep None 0 s.

(** A literal pattern such as [/\[hash\]/]. *)
Definition m_literal (lit : string) : matcher := λ _ s,
  match strip_prefix false lit s with
  | Some _ => Some (String.length lit)
  | None => None
  end.

(** [/c c+/]: a run of two or more [c]. *)
Definition m_run2 (c : ascii) : matcher := λ _ s,
  let k := span (Ascii.eqb c) s in
  if 2 <=? k then Some k else None.

End Regex.

(* ===================================================================== *)
(** * FilenameNormalizer *)
(* ===================================================================== *)

Module Normalizer.
Import Regex.

(** ** The nine expressions of [this.patterns] *)

(** [/([a-f0-9]{8,32})/gi] *)
Definition m_hash : matcher := λ _ s,
  let k := span_upto 32 is_hex s in
  if 8 <=? k then Some k else None.

(** [/\.([a-f0-9]{6,})\./gi].  The hexadecimal run is taken greedily; giving
    characters back cannot help, because the character after a shorter run
    is hexadecimal and not a dot. *)
Definition m_dot_hash : matcher := λ _ s,
  match s with
  | String "." r =>
      let k := span is_hex r in
      match head (drop k r) with
      | Some "."%char => if 6 <=? k then Some (k + 2) else None
      | _ => None
      end
  | _ => None
  end.

(** [/chunk[.\-_](\d+)/gi] *)
Definition m_chunk : matcher := λ _ s,
  match strip_prefix true "chunk" s with
  | Some (String c r) =>
      let k := span is_digit r in
      if is_sep c && (1 <=? k) then Some (6 + k) else None
  | _ => None
  end.

(** [/\/(\d+)\.js$/i]: [$] is the end of the input. *)
Definition m_numbered : matcher := λ _ s,
  match s with
  | String "/" r =>
      let k := span is_digit r in
      match strip_prefix true ".js" (drop k r) with
      | Some EmptyString => if 1 <=? k then Some (k + 4) else None
      | _ => None
      end
  | _ => None
  end.

(** [/[v]?\d+\.\d+\.\d+(-[\w.]+)?/gi] *)
Definition m_digits_dot (s : string) : option (nat * string) :=
  let k := span is_digit s in
  match drop k s with
  | String "." r => if 1 <=? k then Some (k + 1, r) else None
  | _ => None
  end.

Definition m_version_core (s : string) : option nat :=
  match m_digits_dot s with
  | Some (k1, r1) =>
      match m_digits_dot r1 with
      | Some (k2, r2) =>
          let k3 := span is_digit r2 in
          if 1 <=? k3 then
            match drop k3 r2 with
            | String "-" r3 =>
                let k4 := span is_word_or_dot r3 in
                if 1 <=? k4 then Some (k1 + k2 + k3 + 1 + k4)
                else Some (k1 + k2 + k3)
            | _ => Some (k1 + k2 + k3)
            end
          else None
      | None => None
      end
  | None => None
  end.

Definition m_version : matcher := λ _ s,
  match s with
  | String c r =>
      if eqb_ci c "v" then
        match m_version_core r with
        | Some k => Some (S k)
        | None => None
        end
      else m_version_core s
  | EmptyString => None
  end.

(** [/\b\d{10,13}\b/g]: the engine tries 13 digits first and gives one back
    at a time down to 10. *)
Definition digits_then_boundary (s : string) (k : nat) : bool :=
  (span_upto k is_digit s =? k) &&
  word_boundary (head (drop (k - 1) s)) (head (drop k s)).

Definition m_timestamp : matcher := λ prev s,
  if word_boundary prev (head s) then
    List.find (digits_then_boundary s) [13; 12; 11; 10]
  else None.

(** [/[a-f0-9]{8}-[a-f0-9]{4}-[a-f0-9]{4}-[a-f0-9]{4}-[a-f0-9]{12}/gi] *)
Fixpoint m_groups (groups : list nat) (s : string) : option nat :=
  match groups with
  | [] => Some 0
  | [n] => if span_upto n is_hex s =? n then Some n else None
  | n :: gs =>
      if span_upto n is_hex s =? n then
        match drop n s with
        | String "-" r =>
            match m_groups gs r with
            | Some k => Some (n + 1 + k)
            | None => None
            end
        | _ => None
        end
      else None
  end.

Definition m_uuid : matcher := λ _ s, m_groups [8; 4; 4; 4; 12] s.

(** [/build[.\-_]?\d+/gi] *)
Definition m_build : matcher := λ _ s,
  match strip_prefix true "build" s with
  | Some r =>
      let r' := match r with
                | String c r1 => if is_sep c then Some r1 else None
                | EmptyString => None
                end in
      match r' with
      | Some r1 =>
          let k := span is_digit r1 in
          if 1 <=? k then Some (6 + k) else None
      | None =>
          let k := span is_digit r in
          if 1 <=? k then Some (5 + k) else None
      end
  | None => None
  end.

(** [/runtime~[\w]+/gi] *)
Definition m_runtime : matcher := λ _ s,
  match strip_prefix true "runtime~" s with
  | Some r =>
      let k := span is_word r in
      if 1 <=? k then Some (8 + k) else None
  | None => None
  end.

Record pattern := Pattern {
  regex : matcher;
  global : bool;
  replacement : string
}.

Definition patterns : list pattern := [
  Pattern m_hash true "[hash]";
  Pattern m_dot_hash true ".[hash].";
  Pattern m_chunk true "chunk.[id]";
  Pattern m_numbered false "/[chunk].js";
  Pattern m_version true "[version]";
  Pattern m_timestamp true "[timestamp]";
  Pattern m_uuid true "[uuid]";
  Pattern m_build true "build[n]";
  Pattern m_runtime true "runtime~[name]"
].

Definition apply_pattern (s : string) (p : pattern) : string :=
  replace (regex p) (global p) (replacement p) s.

(** The [for (const pattern of this.patterns)] loop. *)
Definition apply_patterns (ps : list pattern) (s : string) : string :=
  foldl apply_pattern s ps.

(** ** [createIdentifier] *)
Definition remove_literal (lit s : string) : string :=
  replace (m_literal lit) true "" s.

Definition createIdentifier (origin normalizedPath : string) : string :=
  let id := normalizedPath in
  let id := remove_literal "[hash]" id in
  let id := remove_literal "[id]" id in
  let id := remove_literal "[chunk]" id in
  let id := remove_literal "[timestamp]" id in
  let id := remove_literal "[uuid]" id in
  let id := remove_literal "[version]" id in
  let id := replace (m_run2 "-") true "-" id in
  let id := replace (m_run2 ".") true "." id in
  origin +:+ id.

(** ** [normalize] *)

(** What [new URL(url)] exposes to [normalize]. *)
Record URL := MkURL {
  origin : string;
  host : string;
  url_pathname : string;
  search : string
}.

Record NormalizedInfo := MkInfo {
  original : string;
  normalized : string;
  identifier : string;
  info_host : string;
  pathname : string;
  filename : string
}.

(** [s.split('/').pop()]: what follows the last slash. *)
Fixpoint last_segment_go (acc s : string) : string :=
  match s with
  | EmptyString => String.rev acc
  | String "/" s' => last_segment_go "" s'
  | String c s' => last_segment_go (String c acc) s'
  end.

Definition last_segment (s : string) : string := last_segment_go "" s.

Definition not_slash (c : ascii) : bool := negb (Ascii.eqb c "/").

(** The body of the [try] block, once [new URL(url)] has returned. *)
Definition normalize_parsed (url : string) (parsed : URL) : NormalizedInfo :=
  let pathname := apply_patterns patterns (url_pathname parsed) in
  let search := apply_patterns patterns (search parsed) in
  {| original := url;
     normalized := origin parsed +:+ pathname +:+ search;
     identifier := createIdentifier (origin parsed) pathname;
     info_host := host parsed;
     pathname := pathname;
     filename := last_segment pathname |}.

(** [parse] is [new URL]; [None] is the [TypeError] it throws. *)
Definition normalize (parse : string → option URL) (url : string)
    : NormalizedInfo :=
  match parse url with
  | Some parsed => normalize_parsed url parsed
  | None =>
      {| original := url;
         normalized := url;
         identifier := url;
         info_host := "unknown";
         pathname := url;
         filename := url |}
  end.

(** ** Notions used to state the properties of the identifier *)


(** Does [tok] occur in [s]? *)
Fixpoint contains (tok s : string) : bool :=
  match strip_prefix false tok s with
  | Some _ => true
  | None =>
      match s with
      | String _ s' => contains tok s'
      | EmptyString => false
      end
  end.

(** [Removed tok s r]: [r] is [s] with the occurrences of [tok] taken out,
    reading from the left. *)
Inductive Removed (tok : string) : string → string → Prop :=
  | Removed_nil : Removed tok "" ""
  | Removed_skip s r : Removed tok s r → Removed tok (tok +:+ s) r
  | Removed_keep c s r :
      (∀ rest, String c s ≠ tok +:+ rest) →
      Removed tok s r → Removed tok (String c s) (String c r).

Fixpoint RemovedAll (toks : list string) (s r : string) : Prop :=
  match toks with
  | [] => s = r
  | tok :: toks' => ∃ m, Removed tok s m ∧ RemovedAll toks' m r
  end.

(** Every run of [c] shrinks to a single [c]. *)
Fixpoint collapse (c : ascii) (s : string) : string :=
  match s with
  | EmptyString => EmptyString
  | String a s' =>
      if Ascii.eqb c a && starts_with (Ascii.eqb c) s' then collapse c s'
      else String a (collapse c s')
  end.

(** The bracketed tokens [createIdentifier] takes out, in its order. *)
Definition stripped_tokens : list string :=
  ["[hash]"; "[id]"; "[chunk]"; "[timestamp]"; "[uuid]"; "[version]"].

(** The bracketed tokens the rule table can put into a path. *)
Definition placeholder_tokens : list string :=
  ["[hash]"; "[id]"; "[chunk]"; "[version]"; "[timestamp]"; "[uuid]";
   "[n]"; "[name]"].

(** ** [extractBaseName] *)

(** [/\.(m?jsx?|js)$/i]: a dot, an optional [m], [js], an optional [x], the
    end of the input. *)
Definition m_extension : matcher := λ _ s,
  match s with
  | String "." r =>
      let r0 := match r with
                | String c r1 => if eqb_ci c "m" then r1 else r
                | EmptyString => r
                end in
      match strip_prefix true "js" r0 with
      | Some EmptyString => Some (String.length s)
      | Some (String c EmptyString) =>
          if eqb_ci c "x" then Some (String.length s) else None
      | _ => None
      end
  | _ => None
  end.

(** [/[.\-_][a-f0-9]{6,}$/i] *)
Definition m_hash_suffix : matcher := λ _ s,
  match s with
  | String c r =>
      if is_sep c && string_forall is_hex r && (6 <=? String.length r)
      then Some (S (String.length r)) else None
  | EmptyString => None
  end.

(** [/^[a-f0-9]{6,}[.\-_]/i]: [^] is the start of the input. *)
Definition m_hash_prefix : matcher := λ prev s,
  match prev with
  | Some _ => None
  | None =>
      let k := span is_hex s in
      match head (drop k s) with
      | Some c => if is_sep c && (6 <=? k) then Some (S k) else None
      | None => None
      end
  end.

(** [/[.\-_]+$/] *)
Definition m_sep_suffix : matcher := λ _ s,
  if string_forall is_sep s then Some (String.length s) else None.

(** [/^[.\-_]+/] *)
Definition m_sep_prefix : matcher := λ prev s,
  match prev with
  | Some _ => None
  | None => let k := span is_sep s in if 1 <=? k then Some k else None
  end.

Definition is_empty (s : string) : bool :=
  match s with EmptyString => true | _ => false end.

Definition extractBaseName (parse : string → option URL) (url : string) : string :=
  let filename := filename (normalize parse url) in
  (* remove extension *)
  let filename := replace m_extension false "" filename in
  (* remove hash patterns *)
  let filename := replace m_hash_suffix false "" filename in
  let filename := replace m_hash_prefix false "" filename in
  let filename := remove_literal "[hash]" filename in
  let filename := remove_literal "[id]" filename in
  let filename := remove_literal "[chunk]" filename in
  (* clean up *)
  let filename := replace m_sep_suffix false "" filename in
  let filename := replace m_sep_prefix false "" filename in
  if is_empty filename then "unknown" else filename.

(** ** [groupScripts] *)

(** A discovered script, as the extractor hands it over. *)
Record RawScript := MkRaw {
  raw_url : string;
  raw_content : string;
  raw_size : nat
}.

Record Group := MkGroup {
  g_identifier : string;
  g_normalized : string;
  g_versions : list (RawScript * NormalizedInfo)
}.

(** The [Map] of groups, in insertion order. *)
Definition has_key (key : string) (groups : list (string * Group)) : bool :=
  existsb (λ e, String.eqb e.1 key) groups.

(** [groups.get(key).versions.push(x)] *)
Fixpoint push_version (key : string) (x : RawScript * NormalizedInfo)
    (groups : list (string * Group)) : list (string * Group) :=
  match groups with
  | [] => []
  | (k, g) :: rest =>
      if String.eqb k key
      then (k, MkGroup (g_identifier g) (g_normalized g) (g_versions g ++ [x])) :: rest
      else (k, g) :: push_version key x rest
  end.

Definition group_step (parse : string → option URL)
    (groups : list (string * Group)) (script : RawScript)
    : list (string * Group) :=
  let normalized := normalize parse (raw_url script) in
  let key := identifier normalized in
  let groups :=
    if has_key key groups then groups
    else groups ++ [(key, MkGroup key (Normalizer.normalized normalized) [])] in
  push_version key (script, normalized) groups.

Definition groupScripts (parse : string → option URL) (scripts : list RawScript)
    : list (string * Group) :=
  foldl (group_step parse) [] scripts.

(** The scripts whose stable identifier is [key], each with what [normalize]
    made of its URL, in the order of the input. *)
Definition members (parse : string → option URL) (key : string)
    (scripts : list RawScript) : list (RawScript * NormalizedInfo) :=
  List.filter (λ x, String.eqb (identifier x.2) key)
              (map (λ script, (script, normalize parse (raw_url script))) scripts).

End Normalizer.

(* ===================================================================== *)
(** * Differ *)
(* ===================================================================== *)

Module Differ.

(** A change object of [diffLines]: [added] and [removed] are [true] or
    absent. *)
Record Part := MkPart {
  value : string;
  added : bool;
  removed : bool
}.

Definition newline : ascii := ascii_of_nat 10.

(** [s.split('\n')]: never empty; a final newline yields a last empty
    piece. *)
Fixpoint split_go (acc s : string) : list string :=
  match s with
  | EmptyString => [String.rev acc]
  | String c s' =>
      if Ascii.eqb c newline then String.rev acc :: split_go "" s'
      else split_go (String c acc) s'
  end.

Definition split_lines (s : string) : list string := split_go "" s.

Definition nonempty (s : string) : bool :=
  match s with EmptyString => false | _ => true end.

Record Stats := MkStats {
  additions : nat;
  deletions : nat;
  unchanged : nat;
  totalOld : nat;
  totalNew : nat;
  changePercent : string
}.

(** [x.toFixed(2)] for [x = num / den * 100] with [den > 0], rounding the
    exact quotient half up.  (The program divides in double precision, which
    agrees with the exact quotient wherever the quotient is not within a
    rounding error of a half-way point; it is exact for [num = 0].) *)
Definition two_digits (n : nat) : string :=
  if n <? 10 then "0" +:+ pretty n else pretty n.

Definition toFixed2_percent (num den : nat) : string :=
  let h := (2 * (num * 100 * 100) + den) / (2 * den) in
  pretty (h / 100) +:+ "." +:+ two_digits (h mod 100).

(** The three counters of the [for (const part of lineDiff)] loop. *)
Definition count_part (acc : nat * nat * nat) (part : Part) : nat * nat * nat :=
  let '(additions, deletions, unchanged) := acc in
  let lines := length (split_lines (value part)) - 1 in
  if added part then (additions + lines, deletions, unchanged)
  else if removed part then (additions, deletions + lines, unchanged)
  else (additions, deletions, unchanged + lines).

Definition calculateStats (lineDiff : list Part) (oldContent newContent : string)
    : Stats :=
  let '(additions, deletions, unchanged) := foldl count_part (0, 0, 0) lineDiff in
  let totalOld := length (split_lines oldContent) in
  let totalNew := length (split_lines newContent) in
  {| additions := additions;
     deletions := deletions;
     unchanged := unchanged;
     totalOld := totalOld;
     totalNew := totalNew;
     changePercent :=
       toFixed2_percent (additions + deletions)
                        (if totalOld =? 0 then 1 else totalOld) |}.

Record Change := MkChange {
  lineNumber : nat;
  content : string
}.

(** [extractChanges]: the accumulator is [(added, removed, lineNumber)]. *)
Definition extract_part (acc : list Change * list Change * nat) (part : Part)
    : list Change * list Change * nat :=
  let '(added_acc, removed_acc, lineNumber) := acc in
  let lines := List.filter nonempty (split_lines (value part)) in
  if added part then
    (added_acc ++ imap (λ i l, MkChange (lineNumber + i) l) lines,
     removed_acc, lineNumber + length lines)
  else if removed part then
    (added_acc, removed_acc ++ map (MkChange lineNumber) lines, lineNumber)
  else (added_acc, removed_acc, lineNumber + length lines).

Definition extractChanges (lineDiff : list Part) : list Change * list Change :=
  let '(added, removed, _) := foldl extract_part ([], [], 1) lineDiff in
  (added, removed).

Record DiffResult := MkDiff {
  lineDiff : list Part;
  stats : Stats;
  changes : list Change * list Change
}.

(** [diff].  [format] is [prettier.format] ([None] when it throws) and
    [diffLines] the line differ of the [diff] package.  Both calls to the
    formatter sit in one [try]: when only the second one throws, the first
    assignment has already happened. *)
Definition diff (format : string → option string)
    (diffLines : string → string → list Part)
    (do_format : bool) (oldContent newContent : string) : DiffResult :=
  let '(formattedOld, formattedNew) :=
    if do_format then
      match format oldContent with
      | Some o =>
          match format newContent with
          | Some n => (o, n)
          | None => (o, newContent)
          end
      | None => (oldContent, newContent)
      end
    else (oldContent, newContent) in
  let lineDiff := diffLines formattedOld formattedNew in
  {| lineDiff := lineDiff;
     stats := calculateStats lineDiff formattedOld formattedNew;
     changes := extractChanges lineDiff |}.

(** ** [formatForTerminal] *)

Definition esc : ascii := ascii_of_nat 27.

(** [\x1b[<code>m] *)
Definition sgr (code : string) : string := String esc ("[" +:+ code +:+ "m").

Definition part_color (part : Part) : string :=
  if added part then sgr "32" else if removed part then sgr "31" else sgr "0".

Definition part_prefix (part : Part) : string :=
  if added part then "+" else if removed part then "-" else " ".

(** [`${color}${prefix} ${line}\x1b[0m`] *)
Definition render_line (part : Part) (line : string) : string :=
  part_color part +:+ part_prefix part +:+ " " +:+ line +:+ sgr "0".

Definition truncation_marker : string :=
  sgr "90" +:+ "... (truncated)" +:+ sgr "0".

(** [options.maxLines || 100], for a [maxLines] that is absent (read as [0])
    or a non-negative number. *)
Definition effective_maxLines (maxLines : nat) : nat :=
  if maxLines =? 0 then 100 else maxLines.

(** One round of the inner loop; the state is [(lines, count)]. *)
Definition emit_line (maxLines : nat) (part : Part)
    (acc : list string * nat) (line : string) : list string * nat :=
  let '(lines, count) := acc in
  if nonempty line && (count <? maxLines)
  then (lines ++ [render_line part line], S count)
  else acc.

(** The outer loop with its [break]. *)
Fixpoint format_parts (maxLines : nat) (parts : list Part)
    (lines : list string) (count : nat) : list string :=
  match parts with
  | [] => lines
  | part :: rest =>
      if maxLines <=? count then lines ++ [truncation_marker]
      else
        let '(lines', count') :=
          foldl (emit_line maxLines part) (lines, count) (split_lines (value part)) in
        format_parts maxLines rest lines' count'
  end.

(** The array [lines] as it is when the loop is left. *)
Definition terminal_lines (lineDiff : list Part) (maxLines : nat) : list string :=
  format_parts (effective_maxLines maxLines) lineDiff [] 0.

(** [lines.join('\n')] *)
Definition join_lines (lines : list string) : string :=
  String.concat (String newline "") lines.

Definition formatForTerminal (lineDiff : list Part) (maxLines : nat) : string :=
  join_lines (terminal_lines lineDiff maxLines).

(** ** Notions used to state the properties of the differ *)

(** The non-empty lines of a part, as [extractChanges] and
    [formatForTerminal] take them. *)
Definition nonempty_lines (part : Part) : list string :=
  List.filter nonempty (split_lines (value part)).

(** Every non-empty line of every part, rendered, in order. *)
Definition all_rendered (parts : list Part) : list string :=
  flat_map (λ part, map (render_line part) (nonempty_lines part)) parts.

(** The tag of a part as the [if (part.added) ... else if (part.removed)]
    cascades read it. *)
Definition is_added (part : Part) : bool := added part.
Definition is_removed (part : Part) : bool := negb (added part) && removed part.
Definition is_unchanged (part : Part) : bool :=
  negb (added part) && negb (removed part).

Fixpoint count_newlines (s : string) : nat :=
  match s with
  | EmptyString => 0
  | String c s' => (if Ascii.eqb c newline then 1 else 0) + count_newlines s'
  end.

Definition newlines_of (tag : Part → bool) (parts : list Part) : nat :=
  sum_list (map (λ part, count_newlines (value part)) (List.filter tag parts)).

(** A text made of non-empty lines, each closed by a newline. *)
Definition well_terminated (s : string) : bool :=
  forallb nonempty (removelast (split_lines s)) &&
  negb (nonempty (List.last (split_lines s) "x")).

End Differ.

(* ===================================================================== *)
(** * Storage *)
(* ===================================================================== *)

Module Storage.

Record Target := MkTarget {
  t_id : nat;
  t_domain : string;
  t_createdAt : nat;
  t_lastScan : option nat
}.

Record Scan := MkScan {
  scan_id : nat;
  scan_targetId : nat;
  scan_url : string;
  scan_timestamp : nat;
  scan_scriptCount : nat;
  scan_totalSize : nat
}.

Record Script := MkScript {
  s_id : nat;
  s_targetId : nat;
  s_url : string;
  s_normalizedUrl : string;
  s_identifier : string;
  s_baseName : string;
  s_firstSeen : nat;
  s_lastSeen : nat
}.

Record Version := MkVersion {
  v_id : nat;
  v_scriptId : nat;
  v_scanId : nat;
  v_contentHash : string;
  v_contentFile : string;
  v_size : nat;
  v_url : string;
  v_timestamp : nat
}.

Record NextId := MkNextId {
  next_target : nat;
  next_scan : nat;
  next_script : nat;
  next_version : nat
}.

(** The object kept in [this.db]. *)
Record Db := MkDb {
  targets : gmap string Target;
  scans : list Scan;
  scripts : gmap string Script;
  scriptVersions : gmap string (list Version);
  nextId : NextId
}.

(** A [Storage] instance with the part of the file system it owns:
    [disk] is the metadata last written to [dbPath], [files] the content
    files, by path. *)
Record Store := MkStore {
  scriptsDir : string;
  db : Db;
  disk : Db;
  files : gmap string string
}.

(** The fresh database of [loadDb]. *)
Definition empty_db : Db :=
  MkDb ∅ [] ∅ ∅ (MkNextId 1 1 1 1).

Definition empty_store (dir : string) : Store :=
  MkStore dir empty_db empty_db ∅.

Definition set_db (st : Store) (d : Db) : Store :=
  MkStore (scriptsDir st) d (disk st) (files st).

Definition set_files (st : Store) (f : gmap string string) : Store :=
  MkStore (scriptsDir st) (db st) (disk st) f.

Definition saveDb (st : Store) : Store :=
  MkStore (scriptsDir st) (db st) (db st) (files st).

(** [join(this.scriptsDir, `${versionId}.js`)] *)
Definition contentPath (dir : string) (versionId : nat) : string :=
  dir +:+ "/" +:+ pretty versionId +:+ ".js".

(** [`${targetId}:${identifier}`] *)
Definition scriptKey (targetId : nat) (identifier : string) : string :=
  pretty targetId +:+ ":" +:+ identifier.

(** [path && existsSync(path)] *)
Definition has_file (st : Store) (path : string) : bool :=
  Differ.nonempty path && bool_decide (is_Some (files st !! path)).

(** ** [this.db.targets[domain]]

    The property names of [Object.prototype], which every plain object
    inherits. *)
Definition prototype_names : list string :=
  ["constructor"; "__defineGetter__"; "__defineSetter__"; "hasOwnProperty";
   "__lookupGetter__"; "__lookupSetter__"; "isPrototypeOf";
   "propertyIsEnumerable"; "toString"; "valueOf"; "__proto__";
   "toLocaleString"].

Definition inherited (name : string) : bool :=
  bool_decide (name ∈ prototype_names).

(** What the lookup evaluates to: a target record of the store, an inherited
    member (a function, or the prototype itself for [__proto__]: truthy, and
    without an [id]), or [undefined]. *)
Inductive Property :=
  | Own (t : Target)
  | Inherited
  | Undefined.

Definition lookup_target (d : Db) (domain : string) : Property :=
  match targets d !! domain with
  | Some t => Own t
  | None => if inherited domain then Inherited else Undefined
  end.


(** ** [getOrCreateTarget]: what [this.db.targets[domain]] holds in the
    end. *)
Definition getOrCreateTarget (now : nat) (domain : string) (st : Store)
    : Property * Store :=
  match lookup_target (db st) domain with
  | Undefined =>
      let d := db st in
      let n := nextId d in
      let t := MkTarget (next_target n) domain now None in
      let d' := MkDb (<[domain := t]> (targets d)) (scans d) (scripts d)
                     (scriptVersions d)
                     (MkNextId (S (next_target n)) (next_scan n)
                               (next_script n) (next_version n)) in
      (Own t, saveDb (set_db st d'))
  | found => (found, st)
  end.

(** ** [createScan] *)
Definition set_lastScan (ts : nat) (t : Target) : Target :=
  MkTarget (t_id t) (t_domain t) (t_createdAt t) (Some ts).

(** The [for (const domain in this.db.targets)] loop with its [break].  The
    order in which the domains are visited matters only when two targets
    have the same id. *)
Definition touch_target (targetId ts : nat) (ts_map : gmap string Target)
    : gmap string Target :=
  match List.find (λ e, t_id e.2 =? targetId) (map_to_list ts_map) with
  | Some (domain, t) => <[domain := set_lastScan ts t]> ts_map
  | None => ts_map
  end.

Definition createScan (now : nat) (targetId : nat) (url : string)
    (scriptCount totalSize : nat) (st : Store) : nat * Store :=
  let d := db st in
  let n := nextId d in
  let scanId := next_scan n in
  let scan := MkScan scanId targetId url now scriptCount totalSize in
  let d' := MkDb (touch_target targetId now (targets d)) (scans d ++ [scan])
                 (scripts d) (scriptVersions d)
                 (MkNextId (next_target n) (S (next_scan n))
                           (next_script n) (next_version n)) in
  (scanId, saveDb (set_db st d')).

(** ** [storeScript] *)
Record ScriptData := MkScriptData {
  sd_url : string;
  sd_content : string;
  sd_size : nat
}.

Record StoreResult := MkResult {
  scriptId : nat;
  versionId : nat;
  isNewScript : bool;
  isNewVersion : bool;
  contentHash : string
}.

Definition set_lastSeen (ts : nat) (s : Script) : Script :=
  MkScript (s_id s) (s_targetId s) (s_url s) (s_normalizedUrl s)
           (s_identifier s) (s_baseName s) (s_firstSeen s) ts.

(** [hashContent] is the SHA-256 digest in hexadecimal. *)
Definition storeScript (hashContent : string → string) (now : nat)
    (targetId scanId : nat) (scriptData : ScriptData)
    (normalizedInfo : Normalizer.NormalizedInfo) (st : Store)
    : StoreResult * Store :=
  let d := db st in
  let n := nextId d in
  let contentHash := hashContent (sd_content scriptData) in
  let key := scriptKey targetId (Normalizer.identifier normalizedInfo) in
  (* get or create the script record *)
  let '(script, isNewScript, nextScript) :=
    match scripts d !! key with
    | None =>
        (MkScript (next_script n) targetId (sd_url scriptData)
                  (Normalizer.normalized normalizedInfo)
                  (Normalizer.identifier normalizedInfo)
                  (Normalizer.filename normalizedInfo) now now,
         true, S (next_script n))
    | Some script => (set_lastSeen now script, false, next_script n)
    end in
  let scripts' := <[key := script]> (scripts d) in
  (* the version list of that script *)
  let versionKey := pretty (s_id script) in
  let versions := default [] (scriptVersions d !! versionKey) in
  match List.find (λ v, String.eqb (v_contentHash v) contentHash) versions with
  | None =>
      let versionId := next_version n in
      let contentFile := contentPath (scriptsDir st) versionId in
      let version := MkVersion versionId (s_id script) scanId contentHash
                               contentFile (sd_size scriptData)
                               (sd_url scriptData) now in
      let d' := MkDb (targets d) (scans d) scripts'
                     (<[versionKey := versions ++ [version]]> (scriptVersions d))
                     (MkNextId (next_target n) (next_scan n) nextScript
                               (S (next_version n))) in
      (MkResult (s_id script) versionId isNewScript true contentHash,
       saveDb (MkStore (scriptsDir st) d' (disk st)
                       (<[contentFile := sd_content scriptData]> (files st))))
  | Some existingVersion =>
      let d' := MkDb (targets d) (scans d) scripts'
                     (<[versionKey := versions]> (scriptVersions d))
                     (MkNextId (next_target n) (next_scan n) nextScript
                               (next_version n)) in
      (MkResult (s_id script) (v_id existingVersion) isNewScript false
                contentHash,
       saveDb (set_db st d'))
  end.

(** ** Sorting: [Array.prototype.sort] is stable. *)
Section sort.
Context {A : Type} (cmp : A → A → Z).

(** [x] came before every element of [l] in the input. *)
Fixpoint sort_insert (x : A) (l : list A) : list A :=
  match l with
  | [] => [x]
  | y :: l' => if (0 <? cmp x y)%Z then y :: sort_insert x l' else x :: l
  end.

Definition sort (l : list A) : list A := foldr sort_insert [] l.
End sort.

(** [(a, b) => b.id - a.id] *)
Definition by_id_desc (a b : Version) : Z :=
  (Z.of_nat (v_id b) - Z.of_nat (v_id a))%Z.

(** [(a, b) => new Date(b.timestamp) - new Date(a.timestamp)] *)
Definition by_timestamp_desc (a b : Version) : Z :=
  (Z.of_nat (v_timestamp b) - Z.of_nat (v_timestamp a))%Z.

(** [l.findIndex(p)], with [None] for [-1]. *)
Fixpoint findIndex {A} (p : A → bool) (l : list A) : option nat :=
  match l with
  | [] => None
  | x :: l' => if p x then Some 0 else S <$> findIndex p l'
  end.

Definition versions_of (st : Store) (scriptId : nat) : list Version :=
  default [] (scriptVersions (db st) !! pretty scriptId).

(** ** [getPreviousVersion]: the version and its content, or [None] for
    [null]. *)
Definition getPreviousVersion (st : Store) (scriptId currentVersionId : nat)
    : option (Version * string) :=
  let sortedVersions := sort by_id_desc (versions_of st scriptId) in
  match findIndex (λ v, v_id v =? currentVersionId) sortedVersions with
  | None => None
  | Some currentIndex =>
      if currentIndex =? length sortedVersions - 1 then None
      else
        match sortedVersions !! (currentIndex + 1) with
        | Some prevVersion =>
            if has_file st (v_contentFile prevVersion) then
              match files st !! v_contentFile prevVersion with
              | Some content => Some (prevVersion, content)
              | None => None
              end
            else None
        | None => None
        end
  end.

(** ** [getScriptVersions] *)
Definition getScriptVersions (st : Store) (scriptId : nat) : list Version :=
  sort by_timestamp_desc (versions_of st scriptId).

(** ** [getVersionContent]: the version, with its content when the file is
    there.  The [for (const scriptId in this.db.scriptVersions)] loop stops
    at the first list that holds the id; the order of the lists matters only
    when two of them hold it. *)
Fixpoint find_version (versionId : nat) (lists : list (string * list Version))
    : option Version :=
  match lists with
  | [] => None
  | (_, vs) :: rest =>
      match List.find (λ v, v_id v =? versionId) vs with
      | Some version => Some version
      | None => find_version versionId rest
      end
  end.

Definition getVersionContent (st : Store) (versionId : nat)
    : option (Version * option string) :=
  match find_version versionId (map_to_list (scriptVersions (db st))) with
  | Some version =>
      if has_file st (v_contentFile version)
      then Some (version, files st !! v_contentFile version)
      else Some (version, None)
  | None => None
  end.

(** ** [removeTarget] *)

(** The [for (const v of versions)] loop.  [unlinkSync path] tells whether
    the deletion of [path] goes through; one that throws is caught and
    ignored, and the file stays. *)
Definition unlink_versions (unlinkSync : string → bool) (vs : list Version)
    (f : gmap string string) : gmap string string :=
  foldl (λ f v,
           if Differ.nonempty (v_contentFile v) &&
              bool_decide (is_Some (f !! v_contentFile v))
           then if unlinkSync (v_contentFile v) then delete (v_contentFile v) f
                else f
           else f) f vs.

(** One round of the [for (const key in this.db.scripts)] loop; the state is
    [(scripts, scriptVersions, files)].  The version list is read from the
    state the earlier rounds have left. *)
Definition remove_script (unlinkSync : string → bool) (targetId : nat)
    (acc : gmap string Script * gmap string (list Version) * gmap string string)
    (entry : string * Script)
    : gmap string Script * gmap string (list Version) * gmap string string :=
  let '(ss, vss, f) := acc in
  let '(key, script) := entry in
  if s_targetId script =? targetId then
    let versions := default [] (vss !! pretty (s_id script)) in
    (delete key ss, delete (pretty (s_id script)) vss,
     unlink_versions unlinkSync versions f)
  else acc.

Definition removeTarget (unlinkSync : string → bool) (domain : string)
    (st : Store) : bool * Store :=
  match lookup_target (db st) domain with
  | Undefined => (false, st)
  | Inherited =>
      (* [target.id] is [undefined]: no script and no scan has it as its
         [targetId], and [delete] finds no own property to take away *)
      (true, saveDb st)
  | Own target =>
      let d := db st in
      let targetId := t_id target in
      let '(ss, vss, f) :=
        foldl (remove_script unlinkSync targetId)
              (scripts d, scriptVersions d, files st)
              (map_to_list (scripts d)) in
      let d' := MkDb (delete domain (targets d))
                     (List.filter (λ s, negb (scan_targetId s =? targetId)) (scans d))
                     ss vss (nextId d) in
      (true, saveDb (MkStore (scriptsDir st) d' (disk st) f))
  end.

(** What the loop of [removeTarget] takes away, as a test on a script key and
    on a version-list key, and what it tries to unlink, as a test on a file
    path. *)
Definition unlinked (vs : list Version) (path : string) : bool :=
  existsb (λ v, Differ.nonempty (v_contentFile v) && String.eqb (v_contentFile v) path) vs.

Definition removes_script (targetId : nat) (entries : list (string * Script))
    (k : string) : bool :=
  existsb (λ e, (s_targetId e.2 =? targetId) && String.eqb e.1 k) entries.

Definition removes_list (targetId : nat) (entries : list (string * Script))
    (key : string) : bool :=
  existsb (λ e, (s_targetId e.2 =? targetId) && String.eqb (pretty (s_id e.2)) key)
          entries.

Definition removes_file (targetId : nat) (entries : list (string * Script))
    (vss : gmap string (list Version)) (path : string) : bool :=
  existsb (λ e, (s_targetId e.2 =? targetId) &&
                unlinked (default [] (vss !! pretty (s_id e.2))) path) entries.

(** ** Histories of a store *)

(** A content file disappears behind the store's back. *)
Definition lose_file (path : string) (st : Store) : Store :=
  set_files st (delete path (files st)).

Inductive reachable (hashContent : string → string) (dir : string)
    : Store → Prop :=
  | reach_empty : reachable hashContent dir (empty_store dir)
  | reach_target st now domain :
      reachable hashContent dir st →
      reachable hashContent dir (getOrCreateTarget now domain st).2
  | reach_scan st now targetId url scriptCount totalSize :
      reachable hashContent dir st →
      reachable hashContent dir
        (createScan now targetId url scriptCount totalSize st).2
  | reach_store st now targetId scanId scriptData normalizedInfo :
      reachable hashContent dir st →
      reachable hashContent dir
        (storeScript hashContent now targetId scanId scriptData normalizedInfo st).2
  | reach_remove st unlinkSync domain :
      reachable hashContent dir st →
      reachable hashContent dir (removeTarget unlinkSync domain st).2
  | reach_lose st path :
      reachable hashContent dir st →
      reachable hashContent dir (lose_file path st).


(** ** Consistency of the metadata

    No target is registered under a name of [Object.prototype].  Ids come
    from the counters, so they are below the counter and never shared; a
    script record sits under the key made of its target id and identifier; a
    version list hangs under the id of a script that exists; a version's
    content file is the one named after its id. *)
Record wf (st : Store) : Prop := MkWf {
  wf_own : ∀ d t, targets (db st) !! d = Some t → inherited d = false;
  wf_targets : ∀ d t, targets (db st) !! d = Some t →
    t_id t < next_target (nextId (db st));
  wf_targets_inj : ∀ d1 d2 t1 t2,
    targets (db st) !! d1 = Some t1 → targets (db st) !! d2 = Some t2 →
    t_id t1 = t_id t2 → d1 = d2;
  wf_scripts : ∀ k s, scripts (db st) !! k = Some s →
    s_id s < next_script (nextId (db st));
  wf_scripts_inj : ∀ k1 k2 s1 s2,
    scripts (db st) !! k1 = Some s1 → scripts (db st) !! k2 = Some s2 →
    s_id s1 = s_id s2 → k1 = k2;
  wf_keys : ∀ k s, scripts (db st) !! k = Some s →
    k = scriptKey (s_targetId s) (s_identifier s);
  wf_lists : ∀ key vs, scriptVersions (db st) !! key = Some vs →
    ∃ k s, scripts (db st) !! k = Some s ∧ key = pretty (s_id s);
  wf_versions : ∀ key vs v,
    scriptVersions (db st) !! key = Some vs → v ∈ vs →
    v_id v < next_version (nextId (db st)) ∧
    v_contentFile v = contentPath (scriptsDir st) (v_id v);
  wf_versions_nodup : ∀ key vs,
    scriptVersions (db st) !! key = Some vs → NoDup (v_id <$> vs);
  wf_versions_disj : ∀ key1 key2 vs1 vs2 v1 v2,
    scriptVersions (db st) !! key1 = Some vs1 →
    scriptVersions (db st) !! key2 = Some vs2 →
    v1 ∈ vs1 → v2 ∈ vs2 → v_id v1 = v_id v2 → key1 = key2
}.

(** ** [getTargetScripts] *)

Record ScriptRow := MkScriptRow {
  row_script : Script;
  version_count : nat;
  latest_version : option nat
}.

(** [(a, b) => new Date(b.lastSeen) - new Date(a.lastSeen)] *)
Definition by_lastSeen_desc (a b : ScriptRow) : Z :=
  (Z.of_nat (s_lastSeen (row_script b)) - Z.of_nat (s_lastSeen (row_script a)))%Z.

Definition script_row (st : Store) (script : Script) : ScriptRow :=
  let versions := versions_of st (s_id script) in
  MkScriptRow script (length versions)
    (if 0 <? length versions
     then v_timestamp <$> head (sort by_timestamp_desc versions)
     else None).

(** The rows are pushed in the order the [for ... in] loop visits the
    scripts and then sorted; the order of the visit only decides between rows
    with the same [lastSeen]. *)
Definition getTargetScripts (st : Store) (targetId : nat) : list ScriptRow :=
  sort by_lastSeen_desc
    (script_row st <$>
       List.filter (λ script, s_targetId script =? targetId)
                   (map_to_list (scripts (db st))).*2).

(** ** [getTargetScans] *)

(** [(a, b) => new Date(b.timestamp) - new Date(a.timestamp)] *)
Definition by_scan_timestamp_desc (a b : Scan) : Z :=
  (Z.of_nat (scan_timestamp b) - Z.of_nat (scan_timestamp a))%Z.

(** [limit] is a non-negative count; the default is 10. *)
Definition getTargetScans (st : Store) (targetId limit : nat) : list Scan :=
  take limit
    (sort by_scan_timestamp_desc
       (List.filter (λ s, scan_targetId s =? targetId) (scans (db st)))).

(** ** [getAllTargets]: the rows that [Object.values(...).map(...)] builds,
    before the final [sort] puts them in order. *)
Record TargetRow := MkTargetRow {
  row_target : Target;
  script_count : nat;
  scan_count : nat;
  last_scan : option nat
}.

Definition target_row (st : Store) (t : Target) : TargetRow :=
  let scripts := getTargetScripts st (t_id t) in
  let scans := getTargetScans st (t_id t) 10 in
  MkTargetRow t (length scripts) (length scans) (t_lastScan t).

Definition target_rows (st : Store) : list TargetRow :=
  target_row st <$> (map_to_list (targets (db st))).*2.

(** ** Histories without outside interference *)

(** The stores the four mutating operations build from an empty one, when
    nobody else touches the content files. *)
Inductive built (hashContent : string → string) (dir : string)
    : Store → Prop :=
  | built_empty : built hashContent dir (empty_store dir)
  | built_target st now domain :
      built hashContent dir st →
      built hashContent dir (getOrCreateTarget now domain st).2
  | built_scan st now targetId url scriptCount totalSize :
      built hashContent dir st →
      built hashContent dir
        (createScan now targetId url scriptCount totalSize st).2
  | built_store st now targetId scanId scriptData normalizedInfo :
      built hashContent dir st →
      built hashContent dir
        (storeScript hashContent now targetId scanId scriptData normalizedInfo st).2
  | built_remove st unlinkSync domain :
      built hashContent dir st →
      built hashContent dir (removeTarget unlinkSync domain st).2.

(** Every version record has its content file, and the file holds a text
    with the recorded hash. *)
Definition intact (hashContent : string → string) (st : Store) : Prop :=
  ∀ key vs v,
    scriptVersions (db st) !! key = Some vs → v ∈ vs →
    ∃ content, files st !! v_contentFile v = Some content ∧
               hashContent content = v_contentHash v.

(** The scan ids in [db.scans] grow along the list and stay below the
    counter. *)
Definition scans_ordered (st : Store) : Prop :=
  StronglySorted lt (scan_id <$> scans (db st)) ∧
  Forall (λ i, i < next_scan (nextId (db st))) (scan_id <$> scans (db st)).

(** ** [getScriptWithContent] *)

(** The fields the latest version adds to the script record. *)
Record LatestContent := MkLatest {
  lc_content : option string;
  lc_content_hash : string;
  lc_size : nat;
  lc_version_timestamp : nat
}.

(** [None] is [null]; a script without versions comes back bare.  The loop
    over the keys of [scripts] stops at the first record with the id; the
    keys are visited here in the order of [map_to_list]. *)
Definition getScriptWithContent (st : Store) (scriptId : nat)
    : option (Script * option LatestContent) :=
  match List.find (λ e, s_id e.2 =? scriptId) (map_to_list (scripts (db st))) with
  | None => None
  | Some (_, foundScript) =>
      match getScriptVersions st scriptId with
      | [] => Some (foundScript, None)
      | latestVersion :: _ =>
          let content :=
            if has_file st (v_contentFile latestVersion)
            then files st !! v_contentFile latestVersion else None in
          Some (foundScript,
                Some (MkLatest content (v_contentHash latestVersion)
                               (v_size latestVersion) (v_timestamp latestVersion)))
      end
  end.

End Storage.

(* ===================================================================== *)
(** * UCMon: the orchestration module *)
(* ===================================================================== *)

Module Monitor.
Import Regex Normalizer Differ Storage.

(** [url.startsWith(lit)] *)
Definition startsWith (lit url : string) : bool :=
  match strip_prefix false lit url with Some _ => true | None => false end.

(** ** [normalizeUrl] *)
Definition normalizeUrl (url : string) : string :=
  if negb (startsWith "http://" url) && negb (startsWith "https://" url)
  then "https://" +:+ url else url.

(** ** The body of the [for (const script of extraction.scripts)] loop of
    [scan] *)
Record ScriptResult := MkScriptResult {
  sr_url : string;
  sr_normalizedUrl : string;
  sr_identifier : string;
  sr_baseName : string;
  sr_size : nat;
  sr_isNew : bool;
  sr_hasNewVersion : bool;
  sr_contentHash : string;
  sr_diff : option Stats
}.

(** An entry of [results.changes]. *)
Record ChangeEntry := MkChangeEntry {
  ce_script : string;
  ce_baseName : string;
  ce_url : string;
  ce_stats : Stats;
  ce_added : list Change;
  ce_removed : list Change
}.

(** [parse], [hashContent], [format] and [diffLines] are [new URL], SHA-256,
    prettier and the line differ.  The result is the entry pushed to
    [results.scripts], the entry pushed to [results.changes] if there is
    one, and the store after the step. *)
Definition process_script (parse : string → option URL)
    (hashContent : string → string)
    (format : string → option string)
    (diffLines : string → string → list Part)
    (now targetId scanId : nat) (script : ScriptData) (st : Store)
    : ScriptResult * option ChangeEntry * Store :=
  let normalizedInfo := normalize parse (sd_url script) in
  (* store script and version *)
  let stored := storeScript hashContent now targetId scanId script normalizedInfo st in
  let baseName := extractBaseName parse (sd_url script) in
  (* a new version of an existing script is diffed against the previous one *)
  let diff :=
    if isNewVersion stored.1 && negb (isNewScript stored.1) then
      match getPreviousVersion stored.2 (scriptId stored.1) (versionId stored.1) with
      | Some (previousVersion, content) =>
          Some (Differ.diff format diffLines true content (sd_content script))
      | None => None
      end
    else None in
  (MkScriptResult (sd_url script) (normalized normalizedInfo)
                  (identifier normalizedInfo) baseName (sd_size script)
                  (isNewScript stored.1) (isNewVersion stored.1)
                  (contentHash stored.1) (stats <$> diff),
   (λ d, MkChangeEntry (filename normalizedInfo) baseName (sd_url script)
                       (stats d) (changes d).1 (changes d).2) <$> diff,
   stored.2).



End Monitor.

(* ===================================================================== *)
(** * Helpers of the command line and of the extractor *)
(* ===================================================================== *)

Module Cli.
Import Regex Normalizer.

(** The texts [truncate] is given come from anywhere (the base name of an
    unparsable URL is the raw input), so they are taken as JavaScript has
    them: sequences of UTF-16 code units, which is what [length] counts and
    what [substring] cuts. *)
Definition CodeUnit : Type := N.

(** ['...'] *)
Definition dots : list CodeUnit := [46; 46; 46]%N.

(** [truncate(str, len)] for [len >= 0]; [str.substring(0, len - 3)] reads a
    negative bound as zero. *)
Definition truncate (str : list CodeUnit) (len : nat) : list CodeUnit :=
  match str with
  | [] => []
  | _ => if length str <=? len then str else take (len - 3) str ++ dots
  end.

End Cli.

Module Extractor.
Import Regex Normalizer.

Definition lower (c : ascii) : ascii :=
  if in_range 65 90 c then ascii_of_nat (nat_of_ascii c + 32) else c.

(** [s.toLowerCase()] on ASCII text *)
Fixpoint toLowerCase (s : string) : string :=
  match s with
  | EmptyString => EmptyString
  | String c s' => String (lower c) (toLowerCase s')
  end.

(** [s.split('?')[0]] *)
Fixpoint before_query (s : string) : string :=
  match s with
  | EmptyString => EmptyString
  | String c s' => if Ascii.eqb c "?" then EmptyString else String c (before_query s')
  end.

(** [s.endsWith(suffix)] *)
Fixpoint endsWith (suffix s : string) : bool :=
  String.eqb s suffix ||
  match s with
  | String _ s' => endsWith suffix s'
  | EmptyString => false
  end.

Definition jsExtensions : list string := [".js"; ".mjs"; ".jsx"].

Definition jsContentTypes : list string :=
  ["application/javascript"; "text/javascript"; "application/x-javascript";
   "application/ecmascript"].

(** [isJavaScript(url, contentType)] *)
Definition isJavaScript (url contentType : string) : bool :=
  let urlLower := toLowerCase url in
  let hasJsExtension :=
    existsb (λ ext, endsWith ext (before_query urlLower)) jsExtensions in
  let hasJsContentType :=
    existsb (λ ct, contains ct (toLowerCase contentType)) jsContentTypes in
  hasJsExtension || hasJsContentType.

End Extractor.

(* ===================================================================== *)
(** * Concrete inputs *)
(* ===================================================================== *)

Module Examples.
Import Normalizer Differ Storage.

(** What [new URL] returns on the URLs used below; it throws on anything
    else that appears here. *)
Definition on_a_com (path : string) : string * URL :=
  ("https://a.com" +:+ path, MkURL "https://a.com" "a.com" path "").

Definition example_urls : list (string * URL) := [
  on_a_com "/static/main.1a2b3c4d.js";
  on_a_com "/static/main.9f8e7d6c.js";
  on_a_com "/bundle0123456789abcdef0123456789abcdef.js";
  on_a_com "/bundle0123456789abcdef0123456789abcdee.js";
  on_a_com "/build123.js"
].

Definition example_parse (url : string) : option URL :=
  snd <$> List.find (λ e, String.eqb e.1 url) example_urls.

(** Two texts prettier rejects, and what [diffLines] returns on them. *)
Definition example_format (_ : string) : option string := None.

Definition example_diffLines (oldText newText : string) : list Part :=
  if String.eqb oldText "foo(" && String.eqb newText "bar("
  then [MkPart "foo(" false true; MkPart "bar(" true false]
  else [].

(** A stand-in for SHA-256 that has no collisions. *)
Definition example_hash (content : string) : string := content.

Definition example_dir : string := "/data/scripts".

Definition main_js : NormalizedInfo :=
  MkInfo "https://a.com/main.1a2b3c4d.js" "https://a.com/main.[hash].js"
         "https://a.com/main.js" "a.com" "/main.[hash].js" "main.[hash].js".

(** One script of target 1 stored with content ["X"] and then with content
    ["Y"], both within millisecond 5. *)
Definition store_X : StoreResult * Store :=
  storeScript example_hash 5 1 1
    (MkScriptData "https://a.com/main.1a2b3c4d.js" "X" 1) main_js
    (empty_store example_dir).

Definition store_XY : StoreResult * Store :=
  storeScript example_hash 5 1 1
    (MkScriptData "https://a.com/main.9f8e7d6c.js" "Y" 1) main_js store_X.2.

(** The two version records this leaves under script 1. *)
Definition version_X : Version :=
  MkVersion 1 1 1 "X" "/data/scripts/1.js" 1 "https://a.com/main.1a2b3c4d.js" 5.

Definition version_Y : Version :=
  MkVersion 2 1 1 "Y" "/data/scripts/2.js" 1 "https://a.com/main.9f8e7d6c.js" 5.

(** Target [a.com] registered at millisecond 1, then a script stored for
    it. *)
Definition store_a : Store :=
  (storeScript example_hash 5 1 1
     (MkScriptData "https://a.com/main.1a2b3c4d.js" "X" 1) main_js
     (getOrCreateTarget 1 "a.com" (empty_store example_dir)).2).2.

End Examples.

Module Fixtures.
Import Normalizer Differ Storage Monitor Examples.

Definition nl : string := String newline "".

(** A diff of newline-terminated lines: one line removed, two added. *)
Definition terminated_diff : list Part := [
  MkPart ("a" +:+ nl) false true;
  MkPart ("b" +:+ nl +:+ "c" +:+ nl) true false
].

Definition main_1 : string := "https://a.com/static/main.1a2b3c4d.js".
Definition main_2 : string := "https://a.com/static/main.9f8e7d6c.js".

(** A first build of [main.js] stored for target 1 during scan 1. *)
Definition store_main : Store :=
  (storeScript example_hash 5 1 1 (MkScriptData main_1 "foo(" 4)
     (normalize example_parse main_1) (empty_store example_dir)).2.

Definition script_main : Script :=
  MkScript 1 1 main_1 "https://a.com/static/main.[hash].js"
           "https://a.com/static/main.js" "main.[hash].js" 5 5.

Definition version_main : Version :=
  MkVersion 1 1 1 "foo(" "/data/scripts/1.js" 4 main_1 5.

(** The second build, as a later scan finds it. *)
Definition second_build : ScriptData := MkScriptData main_2 "bar(" 4.

(** Target [a.com] with one script, scanned once at millisecond 9. *)
Definition store_scanned : Store :=
  (createScan 9 1 "https://a.com" 1 1 store_a).2.

(** Two targets, each scanned once, each with one script of one version. *)
Definition app_js : NormalizedInfo :=
  MkInfo "https://b.com/app.js" "https://b.com/app.js" "https://b.com/app.js"
         "b.com" "/app.js" "app.js".

Definition store_two : Store :=
  let s1 := (getOrCreateTarget 1 "a.com" (empty_store example_dir)).2 in
  let s2 := (getOrCreateTarget 2 "b.com" s1).2 in
  let s3 := (createScan 3 1 "https://a.com" 1 1 s2).2 in
  let s4 := (storeScript example_hash 3 1 1
               (MkScriptData "https://a.com/main.1a2b3c4d.js" "X" 1) main_js s3).2 in
  let s5 := (createScan 4 2 "https://b.com" 1 1 s4).2 in
  (storeScript example_hash 4 2 2
     (MkScriptData "https://b.com/app.js" "Y" 1) app_js s5).2.

Definition version_a : Version :=
  MkVersion 1 1 1 "X" "/data/scripts/1.js" 1 "https://a.com/main.1a2b3c4d.js" 3.

Definition version_b : Version :=
  MkVersion 2 2 2 "Y" "/data/scripts/2.js" 1 "https://b.com/app.js" 4.

End Fixtures.

(* ===================================================================== *)
(** * Properties of the normaliser *)
(* ===================================================================== *)

Section regex_facts.
Import Regex.

Lemma append_nil (b : string) : "" +:+ b = b.
Proof. reflexivity. Qed.

Lemma append_cons x (a b : string) : String x a +:+ b = String x (a +:+ b).
Proof. reflexivity. Qed.

Lemma append_assoc (a b c : string) : (a +:+ b) +:+ c = a +:+ (b +:+ c).
Proof.
  induction a as [|x a IH]; [done|]. rewrite !append_cons. by f_equal.
Qed.

Lemma length_append (a b : string) :
  String.length (a +:+ b) = String.length a + String.length b.
Proof.
  induction a as [|x a IH]; [done|]. rewrite append_cons. simpl. by rewrite IH.
Qed.

Lemma ends_with_tail p c s : ends_with p (String c s) = false → ends_with p s = false.
Proof. destruct s; simpl; auto. Qed.





Lemma replace_go_prev m g rep p q k s :
  context_free m → replace_go m g rep p k s = replace_go m g rep q k s.
Proof.
  intros Hm. destruct s as [|c s]; [done|]. simpl.
  destruct k; [|done]. by rewrite (Hm p q).
Qed.

(** Consuming the rest of a match. *)
Lemma replace_go_skip m g rep p d rest :
  context_free m →
  replace_go m g rep p (String.length d) (d +:+ rest) = replace_go m g rep None 0 rest.
Proof.
  intros Hm. revert p. induction d as [|c d IH]; intros p.
  - rewrite append_nil. by apply replace_go_prev.
  - rewrite append_cons. simpl. apply IH.
Qed.
End regex_facts.

Section hash_rule.
Import Regex Normalizer.




End hash_rule.

Section literal_rule.
Import Regex Normalizer.

Lemma strip_prefix_Some tok s rest :
  strip_prefix false tok s = Some rest → s = tok +:+ rest.
Proof.
  revert s. induction tok as [|a tok IH]; intros s H.
  - simpl in H. by injection H as ->.
  - destruct s as [|b s]; [done|]. simpl in H.
    destruct (Ascii.eqb_spec a b) as [->|]; [|done].
    rewrite append_cons. f_equal. by apply IH.
Qed.

Lemma strip_prefix_append tok rest :
  strip_prefix false tok (tok +:+ rest) = Some rest.
Proof.
  induction tok as [|a tok IH]; [done|].
  rewrite append_cons. simpl. by rewrite Ascii.eqb_refl.
Qed.

Lemma strip_prefix_None tok s :
  strip_prefix false tok s = None → ∀ rest, s ≠ tok +:+ rest.
Proof. intros H rest ->. by rewrite strip_prefix_append in H. Qed.

Lemma m_literal_context_free tok : context_free (m_literal tok).
Proof. by intros p q s. Qed.

(** The program's [replace(/tok/g, '')] removes the occurrences of [tok]. *)
Lemma remove_literal_Removed tok s :
  tok ≠ "" → Removed tok s (remove_literal tok s).
Proof.
  intros Htok. unfold remove_literal, replace.
  remember (String.length s) as n eqn:Hn.
  revert s Hn. induction (lt_wf n) as [n _ IH]; intros s ->.
  destruct s as [|c s]; [constructor|].
  cbn [replace_go]. unfold m_literal at 1.
  destruct (strip_prefix false tok (String c s)) as [rest|] eqn:Hp.
  - apply strip_prefix_Some in Hp.
    destruct tok as [|t tok]; [done|]. rewrite append_cons in Hp.
    injection Hp as -> ->. cbn [String.length]. rewrite append_nil.
    rewrite replace_go_skip by apply m_literal_context_free.
    rewrite <- append_cons. constructor.
    eapply IH; [|done]. simpl. rewrite length_append. lia.
  - constructor; [by apply strip_prefix_None|].
    rewrite (replace_go_prev _ _ _ _ None) by apply m_literal_context_free.
    eapply IH; [|done]. simpl. lia.
Qed.
End literal_rule.

Section run_rule.
Import Regex Normalizer.

Lemma starts_with_span p s : starts_with p s = true ↔ 1 ≤ span p s.
Proof. destruct s as [|a s]; simpl; [split; [done|lia]|]. destruct (p a); split; (done || lia). Qed.

Lemma starts_with_span_0 p s : starts_with p s = false → span p s = 0.
Proof. destruct s as [|a s]; simpl; [done|]. by destruct (p a). Qed.

(** The program's [replace(/cc+/g, 'c')] shrinks every run of [c] to one
    [c]; the second half covers a position inside a run being consumed. *)
Lemma run_rule_collapse c s :
  (∀ p, replace_go (m_run2 c) true (String c "") p 0 s = collapse c s) ∧
  (∀ p, 1 ≤ span (Ascii.eqb c) s →
        String c (replace_go (m_run2 c) true (String c "") p (span (Ascii.eqb c) s) s)
        = collapse c s).
Proof.
  induction s as [|a s [IH1 IH2]]; [split; [done | simpl; lia]|].
  split; intros p.
  - cbn [replace_go collapse]. unfold m_run2. cbn [span].
    destruct (Ascii.eqb_spec c a) as [<-|Hne]; cbn [andb].
    + destruct (starts_with (Ascii.eqb c) s) eqn:Hs.
      * apply starts_with_span in Hs as Hs'.
        destruct (Nat.leb_spec 2 (S (span (Ascii.eqb c) s))); [|lia].
        rewrite append_cons, append_nil. by apply IH2.
      * rewrite (starts_with_span_0 _ _ Hs). cbn [Nat.leb]. by rewrite IH1.
    + cbn [Nat.leb]. by rewrite IH1.
  - cbn [span]. destruct (Ascii.eqb_spec c a) as [<-|Hne]; [|lia]. intros _.
    cbn [replace_go collapse]. rewrite Ascii.eqb_refl. cbn [andb].
    destruct (starts_with (Ascii.eqb c) s) eqn:Hs.
    + apply IH2. by apply starts_with_span.
    + rewrite (starts_with_span_0 _ _ Hs). by rewrite IH1.
Qed.

Lemma replace_run_collapse c s :
  replace (m_run2 c) true (String c "") s = collapse c s.
Proof. apply run_rule_collapse. Qed.
End run_rule.

(** ** The identifier *)

Section identifier.
Import Regex Normalizer Examples.

(** The platform's URL parser. *)
Variable parse : string → option URL.


(** C4 (as amended).  For a URL that parses, the stable identifier is the
    origin followed by the normalised path from which the occurrences of
    [[hash]], [[id]], [[chunk]], [[timestamp]], [[uuid]] and [[version]]
    have been taken out, one token after the other, and in which every run
    of dashes and then every run of dots has been shrunk to a single
    character.  (What [build[n]] and [runtime~[name]] leave in the path
    stays in the identifier.) *)
Theorem identifier_strips_six_tokens url parsed :
  parse url = Some parsed →
  ∃ stripped,
    RemovedAll stripped_tokens (pathname (normalize parse url)) stripped ∧
    identifier (normalize parse url)
    = origin parsed +:+ collapse "." (collapse "-" stripped).
Proof.
  intros Hp. unfold normalize. rewrite Hp.
  unfold normalize_parsed; cbn [identifier pathname].
  set (np := apply_patterns patterns (url_pathname parsed)).
  unfold createIdentifier. rewrite !replace_run_collapse.
  eexists. split; [|reflexivity].
  unfold stripped_tokens; cbn [RemovedAll].
  repeat (eexists; split; [by apply remove_literal_Removed|]).
  reflexivity.
Qed.

(** C5 (as amended).  When the URL does not parse, [normalize] returns the
    raw input as [original], [normalized], [identifier], [pathname] and
    [filename], and the literal ["unknown"] as [host].  ([normalize] is a
    total function: nothing reaches the caller as an exception.) *)
Theorem normalize_malformed url :
  parse url = None →
  normalize parse url
  = {| original := url; normalized := url; identifier := url;
       info_host := "unknown"; pathname := url; filename := url |}.
Proof. intros Hp. unfold normalize. by rewrite Hp. Qed.
End identifier.

Section identifier_examples.
Import Regex Normalizer Examples.



Lemma identifier_strips_six_tokens_witness :
  ∃ stripped,
    RemovedAll stripped_tokens
      (pathname (normalize example_parse "https://a.com/static/main.1a2b3c4d.js"))
      stripped ∧
    identifier (normalize example_parse "https://a.com/static/main.1a2b3c4d.js")
    = "https://a.com" +:+ collapse "." (collapse "-" stripped).
Proof.
  apply (identifier_strips_six_tokens example_parse
           "https://a.com/static/main.1a2b3c4d.js"
           (MkURL "https://a.com" "a.com" "/static/main.1a2b3c4d.js" "")).
  reflexivity.
Defined.

(** C4, as stated, fails: the [[n]] of [build[n]] is not taken out. *)
Lemma identifier_keeps_build_placeholder :
  let info := normalize example_parse "https://a.com/build123.js" in
  example_parse "https://a.com/build123.js"
    = Some (MkURL "https://a.com" "a.com" "/build123.js" "") ∧
  pathname info = "/build[n].js" ∧
  identifier info = "https://a.com/build[n].js" ∧
  "[n]" ∈ placeholder_tokens ∧
  contains "[n]" (identifier info) = true.
Proof. vm_compute. repeat split. set_solver. Qed.

Lemma normalize_malformed_witness :
  normalize example_parse "not a url"
  = {| original := "not a url"; normalized := "not a url";
       identifier := "not a url"; info_host := "unknown";
       pathname := "not a url"; filename := "not a url" |}.
Proof. apply (normalize_malformed example_parse "not a url"). reflexivity. Defined.

(** C5, as stated, fails on the [host] field. *)
Lemma normalize_malformed_host_is_not_input :
  example_parse "not a url" = None ∧
  info_host (normalize example_parse "not a url") = "unknown" ∧
  info_host (normalize example_parse "not a url") ≠ "not a url".
Proof. vm_compute. repeat split; discriminate. Qed.
End identifier_examples.


(* ===================================================================== *)
(** * Properties of the diff statistics *)
(* ===================================================================== *)

Section stats.
Import Differ Examples.

(** C6.  On two one-line texts without a final newline that differ,
    [calculateStats] counts no addition and no deletion and reports a change
    of 0.00 percent, while [extractChanges] lists the added and the removed
    line. *)
Lemma calculateStats_misses_unterminated_line :
  let r := diff example_format example_diffLines true "foo(" "bar(" in
  lineDiff r = [MkPart "foo(" false true; MkPart "bar(" true false] ∧
  additions (stats r) = 0 ∧ deletions (stats r) = 0 ∧
  changePercent (stats r) = "0.00" ∧
  length (changes r).1 = 1 ∧ length (changes r).2 = 1.
Proof. vm_compute. done. Qed.
End stats.


(* ===================================================================== *)
(** * Properties of the version store *)
(* ===================================================================== *)

(** ** Sorting and searching *)

Section sort_facts.
Import Storage.
Context {A : Type} (cmp : A → A → Z) (g : A → nat).
Hypothesis cmp_desc : ∀ a b, cmp a b = (Z.of_nat (g b) - Z.of_nat (g a))%Z.

Lemma sort_insert_perm x l : sort_insert cmp x l ≡ₚ x :: l.
Proof.
  induction l as [|y l IH]; [done|]. simpl.
  destruct (0 <? cmp x y)%Z; [|done].
  rewrite IH. apply Permutation_swap.
Qed.

Lemma sort_perm l : sort cmp l ≡ₚ l.
Proof.
  induction l as [|x l IH]; [done|]. simpl.
  by rewrite sort_insert_perm, IH.
Qed.

Lemma sort_insert_sorted x l :
  StronglySorted (λ a b, g b ≤ g a) l →
  StronglySorted (λ a b, g b ≤ g a) (sort_insert cmp x l).
Proof.
  induction 1 as [|y l Hl IH Hy]; simpl.
  - repeat constructor.
  - rewrite cmp_desc. destruct (Z.ltb_spec 0 (Z.of_nat (g y) - Z.of_nat (g x))).
    + constructor; [done|].
      rewrite sort_insert_perm. constructor; [lia|done].
    + constructor; [by constructor|].
      constructor; [lia|].
      eapply Forall_impl; [done|]. intros z Hz. simpl in Hz. lia.
Qed.

Lemma sort_sorted l : StronglySorted (λ a b, g b ≤ g a) (sort cmp l).
Proof.
  induction l as [|x l IH]; simpl; [constructor|]. by apply sort_insert_sorted.
Qed.

Lemma sort_nodup l : NoDup (g <$> l) → NoDup (g <$> sort cmp l).
Proof. intros H. by rewrite sort_perm. Qed.
End sort_facts.

Section search_facts.
Import Storage.
Context {A : Type}.

Lemma sorted_lookup_le (g : A → nat) l i j a b :
  StronglySorted (λ a b, g b ≤ g a) l →
  l !! i = Some a → l !! j = Some b → i < j → g b ≤ g a.
Proof.
  intros Hs. revert i j. induction Hs as [|x l Hl IH Hx]; intros i j Hi Hj Hlt.
  - done.
  - destruct j as [|j]; [lia|]. simpl in Hj.
    destruct i as [|i]; simpl in Hi.
    + injection Hi as ->. rewrite Forall_forall in Hx.
      apply Hx. by eapply list_elem_of_lookup_2.
    + eapply IH; [done..|lia].
Qed.

Lemma sorted_lookup_lt (g : A → nat) l i j a b :
  StronglySorted (λ a b, g b ≤ g a) l → NoDup (g <$> l) →
  l !! i = Some a → l !! j = Some b → i < j → g b < g a.
Proof.
  intros Hs Hnd Hi Hj Hlt.
  pose proof (sorted_lookup_le g l i j a b Hs Hi Hj Hlt) as Hle.
  destruct (decide (g a = g b)) as [Heq|]; [|lia].
  assert (i = j); [|lia].
  eapply NoDup_lookup; [done| |]; rewrite list_lookup_fmap.
  - by rewrite Hi.
  - rewrite Hj. simpl. by rewrite Heq.
Qed.

Lemma findIndex_Some (p : A → bool) l i :
  findIndex p l = Some i → ∃ x, l !! i = Some x ∧ p x = true.
Proof.
  revert i. induction l as [|y l IH]; intros i H; [done|]. simpl in H.
  destruct (p y) eqn:Hy.
  - injection H as <-. by exists y.
  - destruct (findIndex p l) as [k|]; [|done]. injection H as <-.
    by apply IH.
Qed.

Lemma findIndex_None (p : A → bool) l x :
  findIndex p l = None → x ∈ l → p x = false.
Proof.
  induction l as [|y l IH]; intros H Hx; [by apply elem_of_nil in Hx|].
  simpl in H. destruct (p y) eqn:Hy; [done|].
  destruct (findIndex p l); [done|].
  apply elem_of_cons in Hx as [->|Hx]; [done|]. by apply IH.
Qed.
End search_facts.

(** ** [getPreviousVersion] *)

Section previous.
Import Storage.

Lemma by_id_desc_spec a b :
  by_id_desc a b = (Z.of_nat (v_id b) - Z.of_nat (v_id a))%Z.
Proof. done. Qed.

(** No version of the script has a smaller id than [cur]: nothing is
    returned. *)
Lemma previous_of_oldest st sid cur :
  NoDup (v_id <$> versions_of st sid) →
  (∀ v, v ∈ versions_of st sid → cur ≤ v_id v) →
  getPreviousVersion st sid cur = None.
Proof.
  intros Hnd Hmin. unfold getPreviousVersion.
  set (S := sort by_id_desc (versions_of st sid)).
  destruct (findIndex _ S) as [i|] eqn:Hi; [|done].
  apply findIndex_Some in Hi as (c & Hc & Hcur). apply Nat.eqb_eq in Hcur.
  destruct (Nat.eqb_spec i (length S - 1)); [done|].
  destruct (S !! (i + 1)) as [q|] eqn:Hq; [|done]. exfalso.
  assert (v_id q < v_id c).
  { eapply (sorted_lookup_lt v_id S i (i + 1)); [| |done..|lia].
    - by apply sort_sorted.
    - by apply sort_nodup. }
  assert (q ∈ versions_of st sid) as Hin.
  { rewrite <- (sort_perm by_id_desc). by eapply list_elem_of_lookup_2. }
  apply Hmin in Hin. lia.
Qed.

(** [prev] has the largest id below [cur] among the versions of the script,
    and [cur] is one of them: the result is [prev] with its content, if the
    content file is there. *)
Lemma previous_next_smaller st sid cur c prev :
  NoDup (v_id <$> versions_of st sid) →
  c ∈ versions_of st sid → v_id c = cur →
  prev ∈ versions_of st sid → v_id prev < cur →
  (∀ v, v ∈ versions_of st sid → v_id v < cur → v_id v ≤ v_id prev) →
  getPreviousVersion st sid cur
  = if has_file st (v_contentFile prev)
    then (λ content, (prev, content)) <$> files st !! v_contentFile prev
    else None.
Proof.
  intros Hnd Hc Hcur Hprev Hlt Hmax. unfold getPreviousVersion.
  set (S := sort by_id_desc (versions_of st sid)).
  assert (StronglySorted (λ a b, v_id b ≤ v_id a) S) as Hs by by apply sort_sorted.
  assert (NoDup (v_id <$> S)) as HndS by by apply sort_nodup.
  assert (∀ v, v ∈ S ↔ v ∈ versions_of st sid) as Hmem.
  { intros v. unfold S. by rewrite (sort_perm by_id_desc). }
  destruct (findIndex _ S) as [i|] eqn:Hi.
  2:{ apply (findIndex_None _ _ c) in Hi; [|by apply Hmem].
      apply Nat.eqb_neq in Hi. done. }
  apply findIndex_Some in Hi as (c' & Hc' & Hcur'). apply Nat.eqb_eq in Hcur'.
  apply Hmem, list_elem_of_lookup in Hprev as [j Hj].
  assert (i < j) as Hij.
  { destruct (decide (i < j)); [done|]. exfalso.
    destruct (decide (i = j)) as [->|]; [simplify_eq; lia|].
    assert (v_id c' < v_id prev); [|lia].
    eapply (sorted_lookup_lt v_id S j i); [done..|lia]. }
  pose proof (lookup_lt_Some _ _ _ Hj) as Hlen.
  destruct (Nat.eqb_spec i (length S - 1)); [lia|].
  destruct (lookup_lt_is_Some_2 S (i + 1)) as [q Hq]; [lia|]. rewrite Hq.
  assert (q = prev) as ->.
  { destruct (decide (i + 1 = j)) as [<-|]; [by simplify_eq|]. exfalso.
    assert (v_id prev < v_id q).
    { eapply (sorted_lookup_lt v_id S (i + 1) j); [done..|lia]. }
    assert (v_id q < v_id c').
    { eapply (sorted_lookup_lt v_id S i (i + 1)); [done..|lia]. }
    assert (v_id q ≤ v_id prev); [|lia].
    apply Hmax; [|lia]. apply Hmem. by eapply list_elem_of_lookup_2. }
  destruct (has_file st (v_contentFile prev)) eqn:Hf; [|done].
  by destruct (files st !! v_contentFile prev).
Qed.
End previous.

(** ** File names *)

Section paths.
Import Storage.

Lemma append_inj_r (a b t : string) : a +:+ t = b +:+ t → a = b.
Proof.
  revert b. induction a as [|x a IH]; intros [|y b] H; [done| | |].
  - apply (f_equal String.length) in H.
    rewrite append_nil, append_cons in H. simpl in H.
    rewrite length_append in H. lia.
  - apply (f_equal String.length) in H.
    rewrite append_nil, append_cons in H. simpl in H.
    rewrite length_append in H. lia.
  - rewrite !append_cons in H. injection H as -> H'. f_equal. by apply IH.
Qed.

Lemma contentPath_inj dir a b : contentPath dir a = contentPath dir b → a = b.
Proof.
  unfold contentPath. intros H.
  apply (inj (String.append dir)), (inj (String.append "/")) in H.
  apply append_inj_r in H. by apply (inj pretty) in H.
Qed.

Lemma contentPath_nonempty dir a : Differ.nonempty (contentPath dir a) = true.
Proof. unfold contentPath. by destruct dir. Qed.
End paths.

(** ** The metadata stays consistent *)

Section consistency.
Import Storage.

Lemma wf_empty dir : wf (empty_store dir).
Proof. split; simpl; intros *; try rewrite lookup_empty; done. Qed.

Lemma wf_lose_file path st : wf st → wf (lose_file path st).
Proof. intros []. by split. Qed.

Lemma wf_getOrCreateTarget now domain st :
  wf st → wf (getOrCreateTarget now domain st).2.
Proof.
  intros Hwf. unfold getOrCreateTarget, lookup_target.
  destruct (targets (db st) !! domain) as [t|] eqn:Ht; [done|].
  destruct (inherited domain) eqn:Hin; [done|].
  destruct Hwf. split; simpl; try done.
  - intros d t. rewrite lookup_insert. case_decide; [by subst|]. apply wf_own0.
  - intros d t. rewrite lookup_insert. case_decide; [intros [= <-]; simpl; lia|].
    intros Hd%wf_targets0. lia.
  - intros d1 d2 t1 t2. rewrite !lookup_insert.
    repeat case_decide; simplify_eq; try done.
    + intros [= <-] Hd%wf_targets0. simpl. lia.
    + intros Hd%wf_targets0 [= <-]. simpl. lia.
    + apply wf_targets_inj0.
Qed.


Lemma touch_target_lookup targetId ts m d t' :
  touch_target targetId ts m !! d = Some t' →
  ∃ t, m !! d = Some t ∧ t_id t' = t_id t.
Proof.
  unfold touch_target.
  destruct (List.find _ (map_to_list m)) as [[d0 t0]|] eqn:Hf; [|by eauto].
  apply find_some in Hf as [Hin _].
  apply list_elem_of_In, elem_of_map_to_list in Hin.
  rewrite lookup_insert. case_decide; [|by eauto].
  intros [= <-]. simplify_eq. by exists t0.
Qed.

Lemma wf_createScan now targetId url n1 n2 st :
  wf st → wf (createScan now targetId url n1 n2 st).2.
Proof.
  intros []. split; simpl; try done.
  - intros d t (t0 & H0 & _)%touch_target_lookup. by eapply wf_own0.
  - intros d t (t0 & H0 & ->)%touch_target_lookup. by eapply wf_targets0.
  - intros d1 d2 t1 t2 (t1' & H1 & ->)%touch_target_lookup
                       (t2' & H2 & ->)%touch_target_lookup.
    by eapply wf_targets_inj0.
Qed.

(** The shape of every update [storeScript] makes: one script record written
    under [key], one version list written under that script's id. *)
Lemma wf_store_update st st' key script ns vs' nv :
  wf st →
  key = scriptKey (s_targetId script) (s_identifier script) →
  (∀ k s, scripts (db st) !! k = Some s → s_id s = s_id script → k = key) →
  (∀ s, scripts (db st) !! key = Some s → s_id s = s_id script) →
  s_id script < ns → next_script (nextId (db st)) ≤ ns →
  next_version (nextId (db st)) ≤ nv →
  (∀ v, v ∈ vs' →
        v_id v < nv ∧ v_contentFile v = contentPath (scriptsDir st) (v_id v)) →
  NoDup (v_id <$> vs') →
  (∀ v, v ∈ vs' →
        v ∈ default [] (scriptVersions (db st) !! pretty (s_id script)) ∨
        v_id v = next_version (nextId (db st))) →
  scriptsDir st' = scriptsDir st →
  db st' = MkDb (targets (db st)) (scans (db st))
                (<[key := script]> (scripts (db st)))
                (<[pretty (s_id script) := vs']> (scriptVersions (db st)))
                (MkNextId (next_target (nextId (db st)))
                          (next_scan (nextId (db st))) ns nv) →
  wf st'.
Proof.
  intros [] Hkey Huniq Hsame Hns Hle Hnv Hvs Hnd Hold Hdir Hdb.
  assert (∀ key' vs v, key' ≠ pretty (s_id script) →
            scriptVersions (db st) !! key' = Some vs →
            v ∈ vs' → v ∈ vs → False) as Hfresh.
  { intros key' vs v Hne Hl Hv' Hv.
    destruct (Hold _ Hv') as [Hin|Hid].
    - destruct (scriptVersions (db st) !! pretty (s_id script)) as [vs0|] eqn:Hl0;
        simpl in Hin; [|by apply elem_of_nil in Hin].
      apply Hne. by eapply (wf_versions_disj0 _ _ vs vs0 v v).
    - destruct (wf_versions0 _ _ _ Hl Hv). lia. }
  split; rewrite ?Hdb, ?Hdir; simpl.
  - done.
  - done.
  - done.
  - intros k s0. rewrite lookup_insert. case_decide; [by intros [= <-]|].
    intros Hk%wf_scripts0. lia.
  - intros k1 k2 s1 s2. rewrite !lookup_insert.
    repeat case_decide; simplify_eq; try done.
    + intros [= <-] Hk2 Hid. symmetry. by eapply Huniq.
    + intros Hk1 [= <-] Hid. by eapply Huniq.
    + apply wf_scripts_inj0.
  - intros k s0. rewrite lookup_insert. case_decide; [by intros [= <-]; subst|].
    apply wf_keys0.
  - intros key' vs. rewrite lookup_insert. case_decide as Hk.
    + intros _. exists key, script. by rewrite lookup_insert_eq.
    + intros (k & s0 & Hs0 & ->)%wf_lists0.
      exists k, s0. split; [|done]. rewrite lookup_insert_ne; [done|].
      intros <-. apply Hk. f_equal. symmetry. by apply Hsame.
  - intros key' vs v. rewrite lookup_insert. case_decide.
    + intros [= <-]. apply Hvs.
    + intros Hl Hv. destruct (wf_versions0 _ _ _ Hl Hv). split; [lia|done].
  - intros key' vs. rewrite lookup_insert. case_decide.
    + by intros [= <-].
    + apply wf_versions_nodup0.
  - intros key1 key2 vs1 vs2 v1 v2. rewrite !lookup_insert.
    repeat case_decide; simplify_eq; try done.
    + intros [= <-] Hk2 Hv1 Hv2 Hid. exfalso.
      destruct (Hold _ Hv1) as [Hin|Hfr].
      * destruct (scriptVersions (db st) !! pretty (s_id script)) as [vs0|] eqn:Hl0;
          simpl in Hin; [|by apply elem_of_nil in Hin].
        by pose proof (wf_versions_disj0 _ _ _ _ _ _ Hl0 Hk2 Hin Hv2 Hid).
      * destruct (wf_versions0 _ _ _ Hk2 Hv2). lia.
    + intros Hk1 [= <-] Hv1 Hv2 Hid. exfalso.
      destruct (Hold _ Hv2) as [Hin|Hfr].
      * destruct (scriptVersions (db st) !! pretty (s_id script)) as [vs0|] eqn:Hl0;
          simpl in Hin; [|by apply elem_of_nil in Hin].
        by pose proof (wf_versions_disj0 _ _ _ _ _ _ Hk1 Hl0 Hv1 Hin Hid).
      * destruct (wf_versions0 _ _ _ Hk1 Hv1). lia.
    + apply wf_versions_disj0.
Qed.

(** The versions already listed for a script, seen from a consistent store. *)
Lemma wf_versions_of st sid v :
  wf st → v ∈ versions_of st sid →
  v_id v < next_version (nextId (db st)) ∧
  v_contentFile v = contentPath (scriptsDir st) (v_id v).
Proof.
  intros [] Hv. unfold versions_of in Hv.
  destruct (scriptVersions (db st) !! pretty sid) as [vs|] eqn:Hl;
    simpl in Hv; [by eapply wf_versions0 | by apply elem_of_nil in Hv].
Qed.

Lemma wf_versions_of_nodup st sid : wf st → NoDup (v_id <$> versions_of st sid).
Proof.
  intros []. unfold versions_of.
  destruct (scriptVersions (db st) !! pretty sid) as [vs|] eqn:Hl; simpl;
    [by eapply wf_versions_nodup0 | constructor].
Qed.

Lemma wf_storeScript h now tid scan sd ni st :
  wf st → wf (storeScript h now tid scan sd ni st).2.
Proof.
  intros Hwf. unfold storeScript.
  set (key := scriptKey tid (Normalizer.identifier ni)).
  destruct (scripts (db st) !! key) as [old|] eqn:Hold.
  - (* the script exists *)
    fold (versions_of st (s_id (set_lastSeen now old))).
    set (script := set_lastSeen now old).
    assert (∀ k s, scripts (db st) !! k = Some s → s_id s = s_id script → k = key)
      as Huniq by (intros k s Hk Hid; by eapply (wf_scripts_inj st Hwf)).
    assert (∀ s, scripts (db st) !! key = Some s → s_id s = s_id script)
      as Hsame by (intros s; rewrite Hold; by intros [= <-]).
    pose proof (wf_scripts st Hwf _ _ Hold) as Hlt.
    pose proof (wf_keys st Hwf _ _ Hold : key = scriptKey (s_targetId script)
                                                    (s_identifier script)) as Hkey.
    destruct (List.find _ (versions_of st (s_id script))) as [e|] eqn:Hfind.
    + eapply (wf_store_update st _ key script); simpl;
        [done|exact Hkey|done|done|apply Hlt|done|done| | | |done|reflexivity].
      * intros v Hv. by eapply wf_versions_of.
      * by apply wf_versions_of_nodup.
      * intros v Hv. by left.
    + eapply (wf_store_update st _ key script); simpl;
        [done|exact Hkey|done|done|apply Hlt|done| | | | |done|reflexivity].
      * apply Nat.le_succ_diag_r.
      * intros v [Hv| ->%list_elem_of_singleton]%elem_of_app; simpl; [|split; [lia|done]].
        destruct (wf_versions_of _ _ _ Hwf Hv). split; [lia|done].
      * rewrite fmap_app. apply NoDup_app. split; [by apply wf_versions_of_nodup|].
        split; [|apply NoDup_singleton].
        intros x (v & -> & Hv)%list_elem_of_fmap Hx%list_elem_of_singleton.
        destruct (wf_versions_of _ _ _ Hwf Hv). simpl in *. lia.
      * intros v [Hv| ->%list_elem_of_singleton]%elem_of_app; [by left|by right].
  - (* the script is new *)
    set (script := MkScript _ _ _ _ _ _ _ _).
    fold (versions_of st (s_id script)).
    assert (∀ k s, scripts (db st) !! k = Some s → s_id s = s_id script → k = key)
      as Huniq.
    { intros k s Hk Hid. pose proof (wf_scripts st Hwf _ _ Hk). simpl in Hid. lia. }
    assert (∀ s, scripts (db st) !! key = Some s → s_id s = s_id script)
      as Hsame by (intros s; by rewrite Hold).
    assert (key = scriptKey (s_targetId script) (s_identifier script)) as Hkey
      by reflexivity.
    destruct (List.find _ (versions_of st (s_id script))) as [e|] eqn:Hfind.
    + eapply (wf_store_update st _ key script); simpl;
        [done|exact Hkey|done|done| | |done| | | |done|reflexivity]; [lia|lia|..].
      * intros v Hv. by eapply wf_versions_of.
      * by apply wf_versions_of_nodup.
      * intros v Hv. by left.
    + eapply (wf_store_update st _ key script); simpl;
        [done|exact Hkey|done|done| | | | | | |done|reflexivity]; [lia|lia|..].
      * apply Nat.le_succ_diag_r.
      * intros v [Hv| ->%list_elem_of_singleton]%elem_of_app; simpl; [|split; [lia|done]].
        destruct (wf_versions_of _ _ _ Hwf Hv). split; [lia|done].
      * rewrite fmap_app. apply NoDup_app. split; [by apply wf_versions_of_nodup|].
        split; [|apply NoDup_singleton].
        intros x (v & -> & Hv)%list_elem_of_fmap Hx%list_elem_of_singleton.
        destruct (wf_versions_of _ _ _ Hwf Hv). simpl in *. lia.
      * intros v [Hv| ->%list_elem_of_singleton]%elem_of_app; [by left|by right].
Qed.
End consistency.

(** ** The loop of [removeTarget] *)

Section remove_loop.
Import Storage.

(** A file goes away when the loop reaches it and its deletion goes
    through. *)
Lemma unlink_versions_lookup u vs f path :
  unlink_versions u vs f !! path
  = if unlinked vs path && u path then None else f !! path.
Proof.
  unfold unlink_versions, unlinked. revert f.
  induction vs as [|v vs IH]; intros f; [done|]. cbn [foldl existsb]. rewrite IH.
  set (f1 := if Differ.nonempty (v_contentFile v) && _ then _ else f).
  assert (f1 !! path
          = if Differ.nonempty (v_contentFile v) &&
               String.eqb (v_contentFile v) path && u path
            then None else f !! path) as ->.
  { subst f1. destruct (Differ.nonempty (v_contentFile v)); cbn [andb]; [|done].
    destruct (String.eqb_spec (v_contentFile v) path) as [->|Hne]; cbn [andb].
    - case_bool_decide as Hsome.
      + destruct (u path); [by rewrite lookup_delete_eq|done].
      + destruct (u path); [|done].
        by destruct (f !! path) eqn:Hl; [destruct Hsome; eauto|].
    - case_bool_decide; [|done].
      destruct (u (v_contentFile v)); [|done]. by rewrite lookup_delete_ne. }
  destruct (existsb _ vs), (u path), (Differ.nonempty _ && String.eqb _ _); done.
Qed.

Lemma remove_loop_spec u tid entries ss vss f ss' vss' f' :
  NoDup entries.*1 →
  (∀ k1 k2 s1 s2, (k1, s1) ∈ entries → (k2, s2) ∈ entries →
                  s_id s1 = s_id s2 → k1 = k2) →
  foldl (remove_script u tid) (ss, vss, f) entries = (ss', vss', f') →
  (∀ k, ss' !! k = if removes_script tid entries k then None else ss !! k) ∧
  (∀ key, vss' !! key = if removes_list tid entries key then None else vss !! key) ∧
  (∀ path, f' !! path
           = if removes_file tid entries vss path && u path then None
             else f !! path).
Proof.
  revert ss vss f. induction entries as [|[k0 s0] rest IH]; intros ss vss f Hnd Hinj Hfold.
  { simpl in Hfold. by simplify_eq. }
  rewrite fmap_cons in Hnd. apply NoDup_cons in Hnd as [Hk0 Hnd].
  assert (∀ k1 k2 s1 s2, (k1, s1) ∈ rest → (k2, s2) ∈ rest →
                         s_id s1 = s_id s2 → k1 = k2) as Hinj'.
  { intros k1 k2 s1 s2 H1 H2. apply Hinj; apply elem_of_cons; by right. }
  cbn [foldl] in Hfold. unfold remove_script at 2 in Hfold.
  unfold removes_script, removes_list, removes_file. cbn [existsb fst snd].
  destruct (Nat.eqb_spec (s_targetId s0) tid) as [Htid|Htid]; cbn [andb].
  2:{ by apply IH. }
  destruct (IH _ _ _ Hnd Hinj' Hfold) as (Hss & Hvss & Hf).
  assert (∀ path, removes_file tid rest (delete (pretty (s_id s0)) vss) path
                  = removes_file tid rest vss path) as Hsame.
  { intros path. unfold removes_file.
    clear -Hk0 Hinj. induction rest as [|[k s] rest IH]; [done|]. cbn [existsb fst snd].
    rewrite IH.
    - rewrite lookup_delete_ne; [done|]. intros Heq%(inj pretty).
      apply Hk0. rewrite fmap_cons. simpl. apply elem_of_cons. left.
      apply (Hinj k0 k s0 s); [apply elem_of_cons; by left| |done].
      apply elem_of_cons; right. apply elem_of_cons; by left.
    - intros Hin. apply Hk0. rewrite fmap_cons. apply elem_of_cons. by right.
    - intros k1 k2 s1 s2 H1 H2. apply Hinj.
      + apply elem_of_cons in H1 as [->|H1]; apply elem_of_cons; [by left|].
        right. apply elem_of_cons. by right.
      + apply elem_of_cons in H2 as [->|H2]; apply elem_of_cons; [by left|].
        right. apply elem_of_cons. by right. }
  split_and!.
  - intros k. rewrite Hss. fold (removes_script tid rest k).
    destruct (removes_script tid rest k); [by rewrite orb_true_r|].
    rewrite orb_false_r, lookup_delete. case_decide as Hk.
    + by rewrite (proj2 (String.eqb_eq _ _) Hk).
    + by rewrite (proj2 (String.eqb_neq _ _) Hk).
  - intros key. rewrite Hvss. fold (removes_list tid rest key).
    destruct (removes_list tid rest key); [by rewrite orb_true_r|].
    rewrite orb_false_r, lookup_delete. case_decide as Hk.
    + by rewrite (proj2 (String.eqb_eq _ _) Hk).
    + by rewrite (proj2 (String.eqb_neq _ _) Hk).
  - intros path. rewrite Hf, Hsame, unlink_versions_lookup.
    fold (removes_file tid rest vss path).
    by destruct (removes_file tid rest vss path), (u path), (unlinked _ path).
Qed.
End remove_loop.

Section remove_target.
Import Storage.

Lemma removes_script_true tid (ss : gmap string Script) k :
  removes_script tid (map_to_list ss) k = true ↔
  ∃ s, ss !! k = Some s ∧ s_targetId s = tid.
Proof.
  unfold removes_script. rewrite existsb_exists. split.
  - intros ([k' s] & Hin & Hb). simpl in Hb.
    apply andb_true_iff in Hb as [Ht ->%String.eqb_eq].
    apply list_elem_of_In, elem_of_map_to_list in Hin.
    apply Nat.eqb_eq in Ht. by exists s.
  - intros (s & Hs & Ht). exists (k, s). split.
    + by apply list_elem_of_In, elem_of_map_to_list.
    + simpl. by rewrite String.eqb_refl, (proj2 (Nat.eqb_eq _ _) Ht).
Qed.

Lemma removes_list_true tid (ss : gmap string Script) key :
  removes_list tid (map_to_list ss) key = true ↔
  ∃ k s, ss !! k = Some s ∧ s_targetId s = tid ∧ key = pretty (s_id s).
Proof.
  unfold removes_list. rewrite existsb_exists. split.
  - intros ([k s] & Hin & Hb). simpl in Hb.
    apply andb_true_iff in Hb as [Ht <-%String.eqb_eq].
    apply list_elem_of_In, elem_of_map_to_list in Hin.
    apply Nat.eqb_eq in Ht. by exists k, s.
  - intros (k & s & Hs & Ht & ->). exists (k, s). split.
    + by apply list_elem_of_In, elem_of_map_to_list.
    + simpl. by rewrite String.eqb_refl, (proj2 (Nat.eqb_eq _ _) Ht).
Qed.

Lemma unlinked_true vs path :
  unlinked vs path = true ↔
  ∃ v, v ∈ vs ∧ v_contentFile v = path ∧ Differ.nonempty path = true.
Proof.
  unfold unlinked. rewrite existsb_exists. split.
  - intros (v & Hin%list_elem_of_In & [Hne <-%String.eqb_eq]%andb_true_iff).
    by exists v.
  - intros (v & Hin & <- & Hne). exists v. split; [by apply list_elem_of_In|].
    by rewrite Hne, String.eqb_refl.
Qed.

Lemma removes_file_true tid (ss : gmap string Script) vss path :
  removes_file tid (map_to_list ss) vss path = true ↔
  ∃ k s, ss !! k = Some s ∧ s_targetId s = tid ∧
         unlinked (default [] (vss !! pretty (s_id s))) path = true.
Proof.
  unfold removes_file. rewrite existsb_exists. split.
  - intros ([k s] & Hin & Hb). simpl in Hb.
    apply andb_true_iff in Hb as [Ht Hu].
    apply list_elem_of_In, elem_of_map_to_list in Hin.
    apply Nat.eqb_eq in Ht. by exists k, s.
  - intros (k & s & Hs & Ht & Hu). exists (k, s). split.
    + by apply list_elem_of_In, elem_of_map_to_list.
    + simpl. by rewrite Hu, (proj2 (Nat.eqb_eq _ _) Ht).
Qed.

(** [removeTarget] on a known domain, with the result of its loop spelled
    out. *)
Lemma removeTarget_known u st domain t :
  wf st → targets (db st) !! domain = Some t →
  ∃ ss' vss' f',
    removeTarget u domain st
    = (true, saveDb (MkStore (scriptsDir st)
               (MkDb (delete domain (targets (db st)))
                     (List.filter (λ s, negb (scan_targetId s =? t_id t)) (scans (db st)))
                     ss' vss' (nextId (db st)))
               (disk st) f')) ∧
    (∀ k, ss' !! k = if removes_script (t_id t) (map_to_list (scripts (db st))) k
                     then None else scripts (db st) !! k) ∧
    (∀ key, vss' !! key
            = if removes_list (t_id t) (map_to_list (scripts (db st))) key
              then None else scriptVersions (db st) !! key) ∧
    (∀ path, f' !! path
             = if removes_file (t_id t) (map_to_list (scripts (db st)))
                               (scriptVersions (db st)) path && u path
               then None else files st !! path).
Proof.
  intros Hwf Ht. unfold removeTarget, lookup_target. rewrite Ht.
  destruct (foldl _ _ _) as [[ss' vss'] f'] eqn:Hfold.
  exists ss', vss', f'. split; [done|].
  eapply remove_loop_spec; [| |done].
  - apply NoDup_fst_map_to_list.
  - intros k1 k2 s1 s2 H1%elem_of_map_to_list H2%elem_of_map_to_list.
    by eapply wf_scripts_inj.
Qed.

(** [removeTarget] on a name that is no own property of [db.targets]. *)
Lemma removeTarget_unknown u st domain :
  targets (db st) !! domain = None →
  removeTarget u domain st
  = if inherited domain then (true, saveDb st) else (false, st).
Proof.
  intros Ht. unfold removeTarget, lookup_target. rewrite Ht.
  by destruct (inherited domain).
Qed.

Lemma wf_saveDb st : wf st → wf (saveDb st).
Proof. intros []. by split. Qed.

Lemma wf_removeTarget u domain st : wf st → wf (removeTarget u domain st).2.
Proof.
  intros Hwf.
  destruct (targets (db st) !! domain) as [t|] eqn:Ht.
  2:{ rewrite removeTarget_unknown by done.
      destruct (inherited domain); [by apply wf_saveDb|done]. }
  destruct (removeTarget_known u st domain t Hwf Ht)
    as (ss' & vss' & f' & -> & Hss & Hvss & Hf).
  assert (∀ k s, ss' !! k = Some s → scripts (db st) !! k = Some s) as Hsub.
  { intros k s. rewrite Hss. by destruct (removes_script _ _ _). }
  assert (∀ key vs, vss' !! key = Some vs → scriptVersions (db st) !! key = Some vs)
    as Hvsub.
  { intros key vs. rewrite Hvss. by destruct (removes_list _ _ _). }
  destruct Hwf. split; simpl.
  - intros d t0 [_ Hd]%lookup_delete_Some. by eapply wf_own0.
  - intros d t0 [_ Hd]%lookup_delete_Some. by eapply wf_targets0.
  - intros d1 d2 t1 t2 [_ H1]%lookup_delete_Some [_ H2]%lookup_delete_Some.
    by eapply wf_targets_inj0.
  - intros k s Hk%Hsub. by eapply wf_scripts0.
  - intros k1 k2 s1 s2 H1%Hsub H2%Hsub. by eapply wf_scripts_inj0.
  - intros k s Hk%Hsub. by eapply wf_keys0.
  - intros key vs Hl. pose proof (Hvsub _ _ Hl) as Hl0.
    destruct (wf_lists0 _ _ Hl0) as (k & s & Hs & ->).
    exists k, s. split; [|done]. rewrite Hss.
    destruct (removes_script _ _ k) eqn:Hr; [|done]. exfalso.
    apply removes_script_true in Hr as (s' & Hs' & Htid).
    assert (s' = s) as -> by congruence.
    rewrite Hvss in Hl.
    destruct (removes_list _ _ _) eqn:Hrl; [done|].
    assert (removes_list (t_id t) (map_to_list (scripts (db st))) (pretty (s_id s))
            = true); [|congruence].
    apply removes_list_true. by exists k, s.
  - intros key vs v Hl%Hvsub. by eapply wf_versions0.
  - intros key vs Hl%Hvsub. by eapply wf_versions_nodup0.
  - intros key1 key2 vs1 vs2 v1 v2 H1%Hvsub H2%Hvsub. by eapply wf_versions_disj0.
Qed.

Lemma reachable_wf h dir st : reachable h dir st → wf st.
Proof.
  induction 1;
    eauto using wf_empty, wf_getOrCreateTarget, wf_createScan, wf_storeScript,
                wf_removeTarget, wf_lose_file.
Qed.

Lemma reachable_scriptsDir h dir st : reachable h dir st → scriptsDir st = dir.
Proof.
  induction 1 as [| st now domain _ IH | st now tid url n1 n2 _ IH
                  | st now tid scan sd ni _ IH | st u domain _ IH | st path _ IH];
    try done.
  - unfold getOrCreateTarget. by destruct (lookup_target _ _).
  - unfold storeScript. destruct (_ !! _); destruct (List.find _ _); done.
  - unfold removeTarget. destruct (lookup_target _ _); [|done..].
    by destruct (foldl _ _ _) as [[? ?] ?].
Qed.
End remove_target.

(** ** [storeScript] *)

Section store_script.
Import Storage.
Variable hashContent : string → string.

(** The id of the script a call resolves to. *)
Lemma storeScript_result now tid scan sd ni st :
  let r := (storeScript hashContent now tid scan sd ni st).1 in
  let st' := (storeScript hashContent now tid scan sd ni st).2 in
  let key := scriptKey tid (Normalizer.identifier ni) in
  let hash := hashContent (sd_content sd) in
  let sid := match scripts (db st) !! key with
             | Some s => s_id s
             | None => next_script (nextId (db st))
             end in
  scriptId r = sid ∧
  isNewScript r = bool_decide (scripts (db st) !! key = None) ∧
  (∃ script, scripts (db st') !! key = Some script ∧ s_id script = sid) ∧
  match List.find (λ v, String.eqb (v_contentHash v) hash) (versions_of st sid) with
  | Some e =>
      isNewVersion r = false ∧ versionId r = v_id e ∧
      versions_of st' sid = versions_of st sid
  | None =>
      isNewVersion r = true ∧ versionId r = next_version (nextId (db st)) ∧
      versions_of st' sid
      = versions_of st sid ++
        [MkVersion (next_version (nextId (db st))) sid scan hash
                   (contentPath (scriptsDir st) (next_version (nextId (db st))))
                   (sd_size sd) (sd_url sd) now]
  end.
Proof.
  intros r st' key hash sid. subst r st'. unfold storeScript. fold key hash.
  destruct (scripts (db st) !! key) as [old|] eqn:Hold; subst sid.
  - change (s_id (set_lastSeen now old)) with (s_id old).
    fold (versions_of st (s_id old)).
    destruct (List.find _ (versions_of st (s_id old))) as [e|]; simpl;
      (split_and!; [done|done|eexists; by rewrite lookup_insert_eq|done|done|]);
      unfold versions_of; simpl; by rewrite lookup_insert_eq.
  - cbn [s_id]. fold (versions_of st (next_script (nextId (db st)))).
    destruct (List.find _ (versions_of st _)) as [e|]; simpl;
      (split_and!; [done|done|eexists; by rewrite lookup_insert_eq|done|done|]);
      unfold versions_of; simpl; by rewrite lookup_insert_eq.
Qed.


Lemma find_elem {A} (p : A → bool) l x :
  List.find p l = Some x → x ∈ l ∧ p x = true.
Proof. intros [Hin Hp]%find_some. split; [by apply list_elem_of_In|done]. Qed.

Lemma NoDup_fmap_elem {A B} (f : A → B) l x y :
  NoDup (f <$> l) → x ∈ l → y ∈ l → f x = f y → x = y.
Proof.
  intros Hnd [i Hi]%list_elem_of_lookup [j Hj]%list_elem_of_lookup Heq.
  assert (i = j) as ->; [|congruence].
  eapply NoDup_lookup; [done| |]; rewrite list_lookup_fmap.
  - by rewrite Hi.
  - rewrite Hj. simpl. by rewrite Heq.
Qed.

End store_script.

(** ** Reading versions back *)

Section read_claims.
Import Storage Examples.

Lemma wf_has_file st sid v :
  wf st → v ∈ versions_of st sid →
  has_file st (v_contentFile v) = bool_decide (is_Some (files st !! v_contentFile v)).
Proof.
  intros Hwf Hv. destruct (wf_versions_of _ _ _ Hwf Hv) as [_ ->].
  unfold has_file. by rewrite contentPath_nonempty.
Qed.

(** C3 (as amended).  For a version [cur] of a script: when no version of
    the script has a smaller id, [getPreviousVersion] returns nothing; when
    [prev] is the version of the script with the largest id below [cur], it
    returns [prev] together with its content if the content file of [prev]
    is present, and nothing if that file is absent.  The order is that of the
    ids; timestamps play no part. *)
Theorem getPreviousVersion_by_id hashContent dir st sid cur c :
  reachable hashContent dir st →
  c ∈ versions_of st sid → v_id c = cur →
  ((∀ v, v ∈ versions_of st sid → cur ≤ v_id v) →
   getPreviousVersion st sid cur = None) ∧
  (∀ prev,
     prev ∈ versions_of st sid → v_id prev < cur →
     (∀ v, v ∈ versions_of st sid → v_id v < cur → v_id v ≤ v_id prev) →
     getPreviousVersion st sid cur
     = (λ content, (prev, content)) <$> files st !! v_contentFile prev).
Proof.
  intros Hreach Hc Hcur. pose proof (reachable_wf _ _ _ Hreach) as Hwf.
  pose proof (wf_versions_of_nodup st sid Hwf) as Hnd.
  split.
  - intros Hmin. by apply previous_of_oldest.
  - intros prev Hprev Hlt Hmax.
    rewrite (previous_next_smaller st sid cur c prev) by done.
    rewrite (wf_has_file st sid) by done.
    destruct (files st !! v_contentFile prev) eqn:Hf; [|done].
    by rewrite bool_decide_eq_true_2.
Qed.

Lemma find_version_unique entries key vs v :
  (key, vs) ∈ entries → v ∈ vs →
  (∀ key' vs' v', (key', vs') ∈ entries → v' ∈ vs' → v_id v' = v_id v → v' = v) →
  find_version (v_id v) entries = Some v.
Proof.
  intros Hin Hv Huniq. induction entries as [|[key0 vs0] rest IH].
  { by apply elem_of_nil in Hin. }
  simpl. destruct (List.find _ vs0) as [v'|] eqn:Hfind.
  - apply find_elem in Hfind as [Hv' Hid%Nat.eqb_eq]. f_equal.
    eapply Huniq; [|done..]. apply elem_of_cons. by left.
  - apply elem_of_cons in Hin as [[= <- <-]|Hin].
    + exfalso. apply list_elem_of_In in Hv.
      eapply find_none in Hfind; [|done]. simpl in Hfind.
      by rewrite Nat.eqb_refl in Hfind.
    + apply IH; [done|]. intros key' vs' v' Hin'. apply (Huniq key').
      apply elem_of_cons. by right.
Qed.

(** C8 (as amended).  When the content file of a version record is absent,
    [getVersionContent] returns the record without content, and
    [getPreviousVersion], asked for the version before [cur] when that
    version's file is absent, returns nothing. *)
Theorem reads_with_missing_content hashContent dir st :
  reachable hashContent dir st →
  (∀ key vs v,
     scriptVersions (db st) !! key = Some vs → v ∈ vs →
     files st !! v_contentFile v = None →
     getVersionContent st (v_id v) = Some (v, None)) ∧
  (∀ sid cur c prev,
     c ∈ versions_of st sid → v_id c = cur →
     prev ∈ versions_of st sid → v_id prev < cur →
     (∀ v, v ∈ versions_of st sid → v_id v < cur → v_id v ≤ v_id prev) →
     files st !! v_contentFile prev = None →
     getPreviousVersion st sid cur = None).
Proof.
  intros Hreach. pose proof (reachable_wf _ _ _ Hreach) as Hwf. split.
  - intros key vs v Hl Hv Hf. unfold getVersionContent.
    rewrite (find_version_unique _ key vs).
    + unfold has_file. rewrite Hf.
      by destruct (Differ.nonempty _ && _).
    + by apply elem_of_map_to_list.
    + done.
    + intros key' vs' v' Hl'%elem_of_map_to_list Hv' Hid.
      assert (key' = key) as -> by by eapply (wf_versions_disj st Hwf).
      assert (vs' = vs) as -> by congruence.
      eapply (NoDup_fmap_elem v_id); [by eapply wf_versions_nodup|done..].
  - intros sid cur c prev Hc Hcur Hprev Hlt Hmax Hf.
    rewrite (previous_next_smaller st sid cur c prev)
      by (done || by apply wf_versions_of_nodup).
    rewrite Hf. by destruct (has_file _ _).
Qed.
End read_claims.

Section read_examples.
Import Storage Examples.

Lemma store_XY_reachable : reachable example_hash example_dir store_XY.2.
Proof. unfold store_XY, store_X. apply reach_store, reach_store, reach_empty. Qed.

Lemma store_XY_versions : versions_of store_XY.2 1 = [version_X; version_Y].
Proof. by vm_compute. Qed.

Lemma getPreviousVersion_by_id_witness :
  ((∀ v, v ∈ versions_of store_XY.2 1 → 2 ≤ v_id v) →
   getPreviousVersion store_XY.2 1 2 = None) ∧
  (∀ prev,
     prev ∈ versions_of store_XY.2 1 → v_id prev < 2 →
     (∀ v, v ∈ versions_of store_XY.2 1 → v_id v < 2 → v_id v ≤ v_id prev) →
     getPreviousVersion store_XY.2 1 2
     = (λ content, (prev, content)) <$> files store_XY.2 !! v_contentFile prev).
Proof.
  apply (getPreviousVersion_by_id example_hash example_dir store_XY.2 1 2 version_Y).
  - apply store_XY_reachable.
  - rewrite store_XY_versions. apply elem_of_cons; right. apply elem_of_cons; by left.
  - reflexivity.
Defined.

(** C3, as stated, fails: version 2 is not the oldest version of script 1,
    yet nothing is returned for it once the content file of version 1 is
    gone. *)
Lemma getPreviousVersion_none_for_newer_version :
  let st := lose_file "/data/scripts/1.js" store_XY.2 in
  v_id <$> versions_of st 1 = [1; 2] ∧
  getPreviousVersion store_XY.2 1 2 = Some (version_X, "X") ∧
  getPreviousVersion st 1 2 = None.
Proof. by vm_compute. Qed.

Lemma reads_with_missing_content_witness :
  let st := lose_file "/data/scripts/1.js" store_XY.2 in
  (∀ key vs v,
     scriptVersions (db st) !! key = Some vs → v ∈ vs →
     files st !! v_contentFile v = None →
     getVersionContent st (v_id v) = Some (v, None)) ∧
  (∀ sid cur c prev,
     c ∈ versions_of st sid → v_id c = cur →
     prev ∈ versions_of st sid → v_id prev < cur →
     (∀ v, v ∈ versions_of st sid → v_id v < cur → v_id v ≤ v_id prev) →
     files st !! v_contentFile prev = None →
     getPreviousVersion st sid cur = None).
Proof.
  apply (reads_with_missing_content example_hash example_dir
           (lose_file "/data/scripts/1.js" store_XY.2)).
  apply reach_lose, store_XY_reachable.
Defined.

(** C8, as stated, fails for [getPreviousVersion]: the record of version 1 is
    there and only its content file is missing; [getVersionContent] returns
    the record without content, [getPreviousVersion] returns nothing. *)
Lemma getPreviousVersion_drops_metadata :
  let st := lose_file "/data/scripts/1.js" store_XY.2 in
  version_X ∈ versions_of st 1 ∧
  files st !! v_contentFile version_X = None ∧
  getVersionContent st 1 = Some (version_X, None) ∧
  ¬ is_Some (getPreviousVersion st 1 2).
Proof.
  split_and!.
  - change (version_X ∈ versions_of store_XY.2 1).
    rewrite store_XY_versions. apply elem_of_cons; by left.
  - by vm_compute.
  - by vm_compute.
  - intros [x Hx]. by vm_compute in Hx.
Qed.

(** C7.  Two versions of one script stored within the same millisecond come
    back oldest first. *)
Lemma getScriptVersions_same_millisecond :
  v_timestamp <$> versions_of store_XY.2 1 = [5; 5] ∧
  v_id <$> getScriptVersions store_XY.2 1 = [1; 2] ∧
  v_id <$> sort by_id_desc (versions_of store_XY.2 1) = [2; 1].
Proof. by vm_compute. Qed.
End read_examples.

(** ** [removeTarget] *)

Section remove_claims.
Import Storage Examples.

Lemma versions_of_lookup st sid v :
  v ∈ versions_of st sid →
  ∃ vs, scriptVersions (db st) !! pretty sid = Some vs ∧ v ∈ vs.
Proof.
  unfold versions_of.
  destruct (scriptVersions (db st) !! pretty sid) as [vs|]; simpl; [by eauto|].
  by intros ?%elem_of_nil.
Qed.

End remove_claims.

Section remove_examples.
Import Storage Examples Fixtures.

Lemma store_a_reachable : reachable example_hash example_dir store_a.
Proof. unfold store_a. apply reach_store, reach_target, reach_empty. Qed.


(** The store of the examples below: two targets, each with a scan, a script,
    a version and its content file. *)
Example store_two_contents :
  targets (db store_two) !! "a.com" = Some (MkTarget 1 "a.com" 1 (Some 3)) ∧
  targets (db store_two) !! "b.com" = Some (MkTarget 2 "b.com" 2 (Some 4)) ∧
  scan_targetId <$> scans (db store_two) = [1; 2] ∧
  versions_of store_two 1 = [version_a] ∧
  versions_of store_two 2 = [version_b] ∧
  files store_two !! "/data/scripts/1.js" = Some "X" ∧
  files store_two !! "/data/scripts/2.js" = Some "Y".
Proof. by vm_compute. Qed.


(** What that call leaves: target [b.com] with its scan, its script, its
    version and its content file.  An unregistered name changes nothing. *)
Example removeTarget_example :
  let r := removeTarget (λ _, true) "a.com" store_two in
  r.1 = true ∧
  targets (db r.2) !! "a.com" = None ∧
  targets (db r.2) !! "b.com" = Some (MkTarget 2 "b.com" 2 (Some 4)) ∧
  scan_targetId <$> scans (db r.2) = [2] ∧
  versions_of r.2 1 = [] ∧ versions_of r.2 2 = [version_b] ∧
  files r.2 !! "/data/scripts/1.js" = None ∧
  files r.2 !! "/data/scripts/2.js" = Some "Y" ∧
  nextId (db r.2) = nextId (db store_two) ∧
  removeTarget (λ _, true) "c.com" store_two = (false, store_two).
Proof. by vm_compute. Qed.

(** C9, as stated, fails.  A deletion that throws is caught and ignored:
    the target, its script and its version are removed and the content of
    the version stays on disk.  (And a name such as ["constructor"], under
    which nothing was ever registered, is found on the prototype of
    [db.targets]: the call returns [true].) *)
Lemma removeTarget_failed_unlink_keeps_content :
  let r := removeTarget (λ _, false) "a.com" store_two in
  versions_of store_two 1 = [version_a] ∧
  files store_two !! v_contentFile version_a = Some "X" ∧
  r.1 = true ∧
  targets (db r.2) !! "a.com" = None ∧
  versions_of r.2 1 = [] ∧
  files r.2 !! v_contentFile version_a = Some "X" ∧
  targets (db store_two) !! "constructor" = None ∧
  (removeTarget (λ _, true) "constructor" store_two).1 = true.
Proof. by vm_compute. Qed.
End remove_examples.


(* ===================================================================== *)
(** * Further properties of the normaliser *)
(* ===================================================================== *)

(** ** [extractBaseName] *)

Section base_name.
Import Regex Normalizer.

Lemma replace_go_anchored m g rep p s :
  (∀ q t, m (Some q) t = None) → replace_go m g rep (Some p) 0 s = s.
Proof.
  intros Hm. revert p. induction s as [|c s IH]; intros p; [done|].
  cbn [replace_go]. rewrite Hm. f_equal. apply IH.
Qed.

Lemma drop_all s : drop (String.length s) s = "".
Proof. induction s as [|c s IH]; [done|]. apply IH. Qed.

Lemma ends_with_drop p k s : ends_with p s = false → ends_with p (drop k s) = false.
Proof.
  revert s. induction k as [|k IH]; intros s Hs; [by destruct s|].
  destruct s as [|c s]; [done|]. simpl. apply IH. by eapply ends_with_tail.
Qed.

Lemma starts_with_drop_span p s : starts_with p (drop (span p s) s) = false.
Proof.
  induction s as [|c s IH]; [done|]. simpl.
  destruct (p c) eqn:Hc; [done|]. simpl. by rewrite Hc.
Qed.

(** [replace(/^[.\-_]+/, '')] drops the leading separators. *)
Lemma sep_prefix_drop t :
  replace m_sep_prefix false "" t = drop (span is_sep t) t.
Proof.
  unfold replace. destruct t as [|c t]; [done|].
  cbn [replace_go m_sep_prefix].
  destruct (span is_sep (String c t)) as [|k] eqn:Hk.
  - cbn [Nat.leb drop]. f_equal. by apply replace_go_anchored.
  - cbn [Nat.leb]. by rewrite append_nil.
Qed.

(** After [replace(/[.\-_]+$/, '')] the text does not end in a separator; it
    is empty only if the input consisted of separators. *)
Lemma sep_suffix_spec s p :
  ends_with is_sep (replace_go m_sep_suffix false "" p 0 s) = false ∧
  (replace_go m_sep_suffix false "" p 0 s = "" → string_forall is_sep s = true).
Proof.
  revert p. induction s as [|c s IH]; intros p; [done|].
  cbn [replace_go].
  assert (m_sep_suffix p (String c s)
          = if string_forall is_sep (String c s)
            then Some (S (String.length s)) else None) as -> by done.
  destruct (string_forall is_sep (String c s)) eqn:Hall.
  - rewrite append_nil, drop_all. by split.
  - destruct (IH (Some c)) as [Hend Hempty]. split; [|done].
    destruct (replace_go m_sep_suffix false "" (Some c) 0 s) as [|c' t] eqn:Ht.
    + simpl. simpl in Hall. rewrite Hempty in Hall by done.
      by rewrite andb_true_r in Hall.
    + done.
Qed.

(** The base name is never empty and neither begins nor ends with one of the
    separators [.], [-], [_]. *)
Theorem extractBaseName_clean parse url :
  extractBaseName parse url ≠ "" ∧
  starts_with is_sep (extractBaseName parse url) = false ∧
  ends_with is_sep (extractBaseName parse url) = false.
Proof.
  unfold extractBaseName.
  set (f := remove_literal "[chunk]" _).
  rewrite sep_prefix_drop.
  destruct (sep_suffix_spec f None) as [Hend _].
  change (replace_go m_sep_suffix false "" None 0 f)
    with (replace m_sep_suffix false "" f) in Hend.
  set (t := replace m_sep_suffix false "" f) in *.
  destruct (is_empty (drop (span is_sep t) t)) eqn:He; [by split_and!|].
  split_and!.
  - by destruct (drop (span is_sep t) t).
  - apply starts_with_drop_span.
  - by apply ends_with_drop.
Qed.
End base_name.

(** ** [groupScripts] *)

Section grouping.
Import Regex Normalizer.
Variable parse : string → option URL.

Lemma has_key_true key (groups : list (string * Group)) :
  has_key key groups = true ↔ key ∈ groups.*1.
Proof.
  unfold has_key. rewrite existsb_exists, list_elem_of_fmap. split.
  - intros ([k g] & Hin%list_elem_of_In & Hk). simpl in Hk.
    apply String.eqb_eq in Hk as <-. by exists (k, g).
  - intros ([k g] & -> & Hin). exists (k, g).
    split; [by apply list_elem_of_In | apply String.eqb_refl].
Qed.

Lemma push_version_keys key x groups : (push_version key x groups).*1 = groups.*1.
Proof.
  induction groups as [|[k g] rest IH]; [done|]. cbn [push_version].
  destruct (String.eqb k key); [done|]. rewrite !fmap_cons. by rewrite IH.
Qed.

Lemma push_version_elem key x groups k' g' :
  NoDup groups.*1 → (k', g') ∈ push_version key x groups →
  ∃ g, (k', g) ∈ groups ∧ g_identifier g' = g_identifier g ∧
       g_versions g' = g_versions g ++ (if String.eqb k' key then [x] else []).
Proof.
  induction groups as [|[k g] rest IH]; intros Hnd Hin.
  { by apply elem_of_nil in Hin. }
  rewrite fmap_cons in Hnd. apply NoDup_cons in Hnd as [Hk Hnd]. simpl in Hin, Hk.
  destruct (String.eqb_spec k key) as [->|Hne].
  - apply elem_of_cons in Hin as [[= -> ->]|Hin].
    + exists g. rewrite String.eqb_refl. split_and!; [apply elem_of_cons; by left|done..].
    + exists g'. split_and!; [apply elem_of_cons; by right|done|].
      destruct (String.eqb_spec k' key) as [->|]; [|by rewrite app_nil_r].
      exfalso. apply Hk. apply list_elem_of_fmap. by exists (key, g').
  - apply elem_of_cons in Hin as [[= -> ->]|Hin].
    + exists g. split_and!; [apply elem_of_cons; by left|done|].
      rewrite (proj2 (String.eqb_neq _ _) Hne). by rewrite app_nil_r.
    + destruct (IH Hnd Hin) as (g0 & Hg0 & Hid & Hv).
      exists g0. split_and!; [apply elem_of_cons; by right|done..].
Qed.

Lemma members_snoc key scripts script :
  members parse key (scripts ++ [script])
  = members parse key scripts ++
    (if String.eqb (identifier (normalize parse (raw_url script))) key
     then [(script, normalize parse (raw_url script))] else []).
Proof.
  unfold members. rewrite map_app, List.filter_app. simpl.
  by destruct (String.eqb _ key).
Qed.

Lemma members_nil key scripts :
  (∀ script, script ∈ scripts →
             identifier (normalize parse (raw_url script)) ≠ key) →
  members parse key scripts = [].
Proof.
  unfold members. induction scripts as [|script rest IH]; intros H; [done|].
  simpl. rewrite (proj2 (String.eqb_neq _ _)).
  - apply IH. intros s0 Hs0. apply H, elem_of_cons. by right.
  - apply H, elem_of_cons. by left.
Qed.

(** The groups partition the input by stable identifier: the keys are
    pairwise different, every script's identifier is a key, and the group
    under a key holds exactly the scripts with that identifier, in the order
    of the input (so no group is empty). *)
Theorem groupScripts_partition scripts :
  NoDup (groupScripts parse scripts).*1 ∧
  (∀ script, script ∈ scripts →
     identifier (normalize parse (raw_url script)) ∈ (groupScripts parse scripts).*1) ∧
  (∀ key g, (key, g) ∈ groupScripts parse scripts →
     g_identifier g = key ∧
     g_versions g = members parse key scripts ∧
     g_versions g ≠ []).
Proof.
  unfold groupScripts.
  induction scripts as [|script scripts (Hnd & Hkeys & Hgroups)] using rev_ind.
  { split_and!; [constructor| |]; intros *; by intros ?%elem_of_nil. }
  rewrite foldl_app. cbn [foldl]. unfold group_step at 1 3 5.
  set (groups := foldl (group_step parse) [] scripts) in *.
  set (n := normalize parse (raw_url script)).
  set (groups' := if has_key (identifier n) groups then groups
                  else groups ++ [(identifier n, MkGroup (identifier n) (normalized n) [])]).
  assert (NoDup groups'.*1) as Hnd'.
  { subst groups'. destruct (has_key _ groups) eqn:Hhas; [done|].
    rewrite fmap_app. apply NoDup_app. split_and!; [done| |apply NoDup_singleton].
    intros k Hk Hk'. cbn in Hk'. apply list_elem_of_singleton in Hk'.
    apply has_key_true in Hk. congruence. }
  assert (identifier n ∈ groups'.*1) as Hin'.
  { subst groups'. destruct (has_key _ groups) eqn:Hhas; [by apply has_key_true|].
    rewrite fmap_app. apply elem_of_app. right. by apply list_elem_of_singleton. }
  assert (∀ k, k ∈ groups.*1 → k ∈ groups'.*1) as Hsub.
  { intros k Hk. subst groups'. destruct (has_key _ groups); [done|].
    rewrite fmap_app. apply elem_of_app. by left. }
  assert (∀ key g, (key, g) ∈ groups' →
            g_identifier g = key ∧ g_versions g = members parse key scripts ∧
            (g_versions g = [] → key = identifier n)) as Hgroups'.
  { intros key g Hin. subst groups'.
    destruct (has_key _ groups) eqn:Hhas.
    - destruct (Hgroups _ _ Hin) as (? & ? & ?). done.
    - apply elem_of_app in Hin as [Hin|[= -> ->]%list_elem_of_singleton].
      + destruct (Hgroups _ _ Hin) as (? & ? & ?). done.
      + split_and!; [done| |done]. simpl. symmetry. apply members_nil.
        intros s0 Hs0%Hkeys Heq. rewrite Heq in Hs0.
        apply has_key_true in Hs0. congruence. }
  split_and!.
  - by rewrite push_version_keys.
  - intros s0 [Hs0| ->%list_elem_of_singleton]%elem_of_app;
      rewrite push_version_keys; [by apply Hsub, Hkeys|done].
  - intros key g Hin.
    destruct (push_version_elem _ _ _ _ _ Hnd' Hin) as (g0 & Hg0 & Hid & Hv).
    destruct (Hgroups' _ _ Hg0) as (Hid0 & Hv0 & Hne0).
    split_and!.
    + congruence.
    + rewrite Hv, Hv0, members_snoc. fold n.
      by rewrite (String.eqb_sym key).
    + rewrite Hv. destruct (g_versions g0) as [|? ?] eqn:Hg; [|done].
      rewrite Hne0 by done. by rewrite String.eqb_refl.
Qed.
End grouping.


(* ===================================================================== *)
(** * Further properties of the differ *)
(* ===================================================================== *)

(** ** [formatForTerminal] *)

Section terminal.
Import Differ.

Lemma emit_lines_spec M part lines out count :
  count ≤ M →
  foldl (emit_line M part) (out, count) lines
  = (out ++ take (M - count) (map (render_line part) (List.filter nonempty lines)),
     min M (count + length (List.filter nonempty lines))).
Proof.
  revert out count. induction lines as [|line lines IH]; intros out count Hle.
  { simpl. rewrite take_nil, app_nil_r. f_equal. lia. }
  cbn [foldl emit_line List.filter].
  destruct (nonempty line); cbn [andb].
  - destruct (Nat.ltb_spec count M).
    + rewrite IH by lia. cbn [map length]. rewrite <- app_assoc. cbn [app].
      replace (M - count) with (S (M - S count)) by lia. cbn [take].
      f_equal. lia.
    + rewrite IH by lia. replace (M - count) with 0 by lia.
      rewrite !take_0. cbn [map length]. f_equal. lia.
  - by apply IH.
Qed.

Lemma all_rendered_cons part parts :
  all_rendered (part :: parts)
  = map (render_line part) (nonempty_lines part) ++ all_rendered parts.
Proof. done. Qed.

Lemma format_parts_spec M parts out count :
  count ≤ M →
  format_parts M parts out count
  = out ++ take (M - count) (all_rendered parts) ++
    (if match parts with [] => false | _ => true end &&
        (M <=? count + length (all_rendered (removelast parts)))
     then [truncation_marker] else []).
Proof.
  revert out count. induction parts as [|part rest IH]; intros out count Hle.
  { simpl. by rewrite take_nil, app_nil_r. }
  cbn [format_parts andb].
  destruct (Nat.leb_spec M count) as [Hge|Hlt].
  - replace (M - count) with 0 by lia. rewrite take_0. cbn [app].
    by destruct (Nat.leb_spec M (count + length (all_rendered (removelast (part :: rest)))));
      [|lia].
  - rewrite emit_lines_spec by lia. fold (nonempty_lines part).
    rewrite IH by lia. rewrite <- app_assoc. f_equal.
    rewrite all_rendered_cons, take_app, length_map, <- app_assoc. f_equal.
    set (n := length (nonempty_lines part)).
    replace (M - M `min` (count + n)) with (M - count - n) by lia.
    f_equal. destruct rest as [|part' rest'].
    + cbn [removelast all_rendered flat_map length andb].
      by destruct (Nat.leb_spec M (count + 0)); [lia|].
    + change (removelast (part :: part' :: rest'))
        with (part :: removelast (part' :: rest')).
      rewrite all_rendered_cons, length_app, length_map. fold n. cbn [andb].
      set (k := length (all_rendered (removelast (part' :: rest')))).
      destruct (Nat.leb_spec M (M `min` (count + n) + k));
        destruct (Nat.leb_spec M (count + (n + k))); (done || lia).
Qed.

(** The lines [formatForTerminal] joins are the first [maxLines] (100 when
    the option is absent or [0]) non-empty lines of the diff, rendered, and
    then the truncation marker exactly when the parts before the last one
    already hold that many non-empty lines.  Lines cut off inside the last
    part are dropped without a marker. *)
Theorem terminal_lines_spec lineDiff maxLines :
  terminal_lines lineDiff maxLines
  = take (effective_maxLines maxLines) (all_rendered lineDiff) ++
    (if match lineDiff with [] => false | _ => true end &&
        (effective_maxLines maxLines <=? length (all_rendered (removelast lineDiff)))
     then [truncation_marker] else []).
Proof.
  unfold terminal_lines. rewrite format_parts_spec by lia.
  by rewrite Nat.sub_0_r.
Qed.

(** At most [maxLines] diff lines and one marker are printed. *)
Theorem terminal_lines_bound lineDiff maxLines :
  length (terminal_lines lineDiff maxLines) ≤ S (effective_maxLines maxLines) ∧
  0 < effective_maxLines maxLines.
Proof.
  unfold terminal_lines. rewrite format_parts_spec by lia.
  rewrite !length_app, length_take. split.
  - destruct (_ && _); simpl; lia.
  - unfold effective_maxLines. destruct (Nat.eqb_spec maxLines 0); lia.
Qed.
End terminal.

(** ** [extractChanges] *)

Section changes.
Import Differ.

Lemma numbered_lines n (lines : list string) :
  content <$> imap (λ i l, MkChange (n + i) l) lines = lines ∧
  lineNumber <$> imap (λ i l, MkChange (n + i) l) lines = seq n (length lines).
Proof.
  revert n. induction lines as [|l lines IH]; intros n; [done|].
  rewrite imap_cons, !fmap_cons. cbn [content lineNumber length seq].
  rewrite Nat.add_0_r.
  rewrite (imap_ext _ (λ i l0, MkChange (S n + i) l0))
    by (intros i x _; simpl; f_equal; lia).
  destruct (IH (S n)) as [-> ->]. done.
Qed.

Lemma constant_lines n (lines : list string) :
  content <$> map (MkChange n) lines = lines ∧
  Forall (λ x, x = n) (lineNumber <$> map (MkChange n) lines).
Proof.
  induction lines as [|l lines [IHc IHl]]; [by split; [|constructor]|].
  split; simpl; [f_equal; exact IHc | constructor; [done|exact IHl]].
Qed.

Lemma seq_sorted n k : StronglySorted lt (seq n k).
Proof.
  revert n. induction k as [|k IH]; intros n; [constructor|].
  simpl. constructor; [apply IH|].
  apply Forall_forall. intros x Hx%list_elem_of_In%in_seq. lia.
Qed.

Lemma extract_fold parts a r n :
  ∃ A R n',
    foldl extract_part (a, r, n) parts = (a ++ A, r ++ R, n') ∧
    n ≤ n' ∧
    content <$> A = flat_map nonempty_lines (List.filter is_added parts) ∧
    content <$> R = flat_map nonempty_lines (List.filter is_removed parts) ∧
    StronglySorted lt (lineNumber <$> A) ∧
    Forall (λ x, n ≤ x < n') (lineNumber <$> A) ∧
    StronglySorted le (lineNumber <$> R) ∧
    Forall (λ x, n ≤ x ≤ n') (lineNumber <$> R).
Proof.
  revert a r n. induction parts as [|part parts IH]; intros a r n.
  { exists [], [], n. rewrite !app_nil_r. split_and!; (done || constructor). }
  cbn [foldl extract_part List.filter]. fold (nonempty_lines part).
  unfold is_added at 1, is_removed at 1.
  destruct (added part) eqn:Ha; cbn [negb andb].
  - destruct (IH (a ++ imap (λ i l, MkChange (n + i) l) (nonempty_lines part)) r
                 (n + length (nonempty_lines part)))
      as (A & R & n' & -> & Hn & HA & HR & HsA & HbA & HsR & HbR).
    destruct (numbered_lines n (nonempty_lines part)) as [Hc Hl].
    exists (imap (λ i l, MkChange (n + i) l) (nonempty_lines part) ++ A), R, n'.
    rewrite app_assoc. split_and!; [done|lia| |done| | |done|].
    + rewrite fmap_app, Hc, HA. done.
    + rewrite fmap_app, Hl. apply StronglySorted_app_2; [|apply seq_sorted|done].
      intros x1 x2 Hx1%list_elem_of_In%in_seq Hx2.
      rewrite Forall_forall in HbA. apply HbA in Hx2. lia.
    + rewrite fmap_app, Hl. apply Forall_app. split.
      * apply Forall_forall. intros x Hx%list_elem_of_In%in_seq. lia.
      * eapply Forall_impl; [done|]. intros x Hx. simpl in Hx. lia.
    + eapply Forall_impl; [done|]. intros x Hx. simpl in Hx. lia.
  - destruct (removed part) eqn:Hr.
    + destruct (IH a (r ++ map (MkChange n) (nonempty_lines part)) n)
        as (A & R & n' & -> & Hn & HA & HR & HsA & HbA & HsR & HbR).
      exists A, (map (MkChange n) (nonempty_lines part) ++ R), n'.
      rewrite app_assoc.
      destruct (constant_lines n (nonempty_lines part)) as [Hc Hl].
      split_and!; [done|done|done| |done|done| |].
      * rewrite fmap_app, Hc, HR. done.
      * rewrite fmap_app. apply StronglySorted_app_2.
        -- intros x1 x2 Hx1 Hx2. rewrite Forall_forall in Hl, HbR.
           apply Hl in Hx1. apply HbR in Hx2. lia.
        -- clear -Hl. induction Hl as [|x l -> Hl IH]; constructor; [done|].
           eapply Forall_impl; [done|]. intros y Hy. simpl in Hy. lia.
        -- done.
      * rewrite fmap_app. apply Forall_app. split; [|done].
        eapply Forall_impl; [done|]. intros x Hx. simpl in Hx. lia.
    + destruct (IH a r (n + length (nonempty_lines part)))
        as (A & R & n' & -> & Hn & HA & HR & HsA & HbA & HsR & HbR).
      exists A, R, n'. split_and!; [done|lia|done|done|done| |done|].
      * eapply Forall_impl; [done|]. intros x Hx. simpl in Hx. lia.
      * eapply Forall_impl; [done|]. intros x Hx. simpl in Hx. lia.
Qed.

(** [extractChanges] lists the non-empty lines of the added parts and those
    of the removed parts, each in the order of the diff; the line numbers of
    the added lines start at 1 or above and increase strictly, those of the
    removed lines never decrease. *)
Theorem extractChanges_lines lineDiff :
  content <$> (extractChanges lineDiff).1
  = flat_map nonempty_lines (List.filter is_added lineDiff) ∧
  content <$> (extractChanges lineDiff).2
  = flat_map nonempty_lines (List.filter is_removed lineDiff) ∧
  StronglySorted lt (lineNumber <$> (extractChanges lineDiff).1) ∧
  Forall (λ x, 1 ≤ x) (lineNumber <$> (extractChanges lineDiff).1) ∧
  StronglySorted le (lineNumber <$> (extractChanges lineDiff).2) ∧
  Forall (λ x, 1 ≤ x) (lineNumber <$> (extractChanges lineDiff).2).
Proof.
  unfold extractChanges.
  destruct (extract_fold lineDiff [] [] 1)
    as (A & R & n' & -> & Hn & HA & HR & HsA & HbA & HsR & HbR).
  cbn [app fst snd]. split_and!; try done.
  - eapply Forall_impl; [done|]. intros x Hx. simpl in Hx. lia.
  - eapply Forall_impl; [done|]. intros x Hx. simpl in Hx. lia.
Qed.
End changes.

(** ** [calculateStats] *)

Section stats_counts.
Import Differ.

Lemma split_go_length acc s : length (split_go acc s) = S (count_newlines s).
Proof.
  revert acc. induction s as [|c s IH]; intros acc; [done|].
  cbn [split_go count_newlines].
  destruct (Ascii.eqb c newline); cbn [length]; rewrite IH; lia.
Qed.

Lemma split_lines_length s : length (split_lines s) = S (count_newlines s).
Proof. apply split_go_length. Qed.

Lemma newlines_of_cons tag part parts :
  newlines_of tag (part :: parts)
  = (if tag part then count_newlines (value part) else 0) + newlines_of tag parts.
Proof. unfold newlines_of. cbn [List.filter]. by destruct (tag part). Qed.

Lemma count_fold parts a d u :
  foldl count_part (a, d, u) parts
  = (a + newlines_of is_added parts, d + newlines_of is_removed parts,
     u + newlines_of is_unchanged parts).
Proof.
  revert a d u. induction parts as [|part parts IH]; intros a d u.
  { unfold newlines_of. simpl. by rewrite !Nat.add_0_r. }
  cbn [foldl count_part]. rewrite split_lines_length, !newlines_of_cons.
  rewrite Nat.sub_succ, Nat.sub_0_r.
  unfold is_added at 1, is_removed at 1, is_unchanged at 1.
  destruct (added part), (removed part); cbn [negb andb];
    rewrite IH; (apply (f_equal2 pair); [apply (f_equal2 pair)|]); lia.
Qed.

Lemma stats_counters lineDiff oldContent newContent :
  additions (calculateStats lineDiff oldContent newContent)
  = newlines_of is_added lineDiff ∧
  deletions (calculateStats lineDiff oldContent newContent)
  = newlines_of is_removed lineDiff ∧
  unchanged (calculateStats lineDiff oldContent newContent)
  = newlines_of is_unchanged lineDiff.
Proof. unfold calculateStats. by rewrite count_fold. Qed.

(** The three counters are the numbers of newline characters in the added,
    the removed and the other parts; the totals are one more than the number
    of newline characters of the two texts, hence never zero. *)
Theorem calculateStats_counts_newlines lineDiff oldContent newContent :
  additions (calculateStats lineDiff oldContent newContent)
  = newlines_of is_added lineDiff ∧
  deletions (calculateStats lineDiff oldContent newContent)
  = newlines_of is_removed lineDiff ∧
  unchanged (calculateStats lineDiff oldContent newContent)
  = newlines_of is_unchanged lineDiff ∧
  totalOld (calculateStats lineDiff oldContent newContent)
  = S (count_newlines oldContent) ∧
  totalNew (calculateStats lineDiff oldContent newContent)
  = S (count_newlines newContent).
Proof.
  destruct (stats_counters lineDiff oldContent newContent) as (Ha & Hd & Hu).
  split_and!; [done..| |]; unfold calculateStats; rewrite count_fold;
    apply split_lines_length.
Qed.

Lemma well_terminated_count s :
  well_terminated s = true →
  length (List.filter nonempty (split_lines s)) = count_newlines s.
Proof.
  unfold well_terminated. intros [Hall Hlast%negb_true_iff]%andb_true_iff.
  pose proof (split_lines_length s) as Hlen.
  destruct (split_lines s) as [|x l] eqn:Hs using rev_ind; [done|]. clear IHl.
  rewrite removelast_last in Hall. rewrite last_last in Hlast.
  rewrite List.filter_app. simpl. rewrite Hlast, app_nil_r.
  rewrite length_app in Hlen. simpl in Hlen.
  rewrite forallb_filter_id by done. lia.
Qed.

Lemma newlines_of_well_terminated tag parts :
  Forall (λ part, well_terminated (value part) = true) parts →
  newlines_of tag parts = length (flat_map nonempty_lines (List.filter tag parts)).
Proof.
  induction 1 as [|part parts Hp _ IH]; [done|].
  rewrite newlines_of_cons. cbn [List.filter].
  destruct (tag part); [|exact IH]. cbn [flat_map].
  rewrite length_app, IH.
  by rewrite <- (well_terminated_count (value part)).
Qed.

(** When every part is made of non-empty, newline-terminated lines, the
    counters agree with the lists of [extractChanges]. *)
Theorem calculateStats_agrees_with_changes lineDiff oldContent newContent :
  Forall (λ part, well_terminated (value part) = true) lineDiff →
  additions (calculateStats lineDiff oldContent newContent)
  = length (extractChanges lineDiff).1 ∧
  deletions (calculateStats lineDiff oldContent newContent)
  = length (extractChanges lineDiff).2.
Proof.
  intros Hwt.
  destruct (stats_counters lineDiff oldContent newContent) as (-> & -> & _).
  unfold extractChanges.
  destruct (extract_fold lineDiff [] [] 1) as (A & R & n' & -> & _ & HA & HR & _).
  apply (f_equal length) in HA, HR. rewrite length_fmap in HA, HR.
  cbn [app fst snd]. rewrite HA, HR.
  by rewrite !newlines_of_well_terminated.
Qed.
End stats_counts.


(* ===================================================================== *)
(** * Further properties of the version store *)
(* ===================================================================== *)

(** ** The read projections *)

Section projections.
Import Storage.

Lemma sorted_head_max {A} (g : A → nat) (l : list A) x :
  StronglySorted (λ a b, g b ≤ g a) l → head l = Some x →
  ∀ y, y ∈ l → g y ≤ g x.
Proof.
  intros Hs Hh y Hy. destruct l as [|x' l]; [done|]. injection Hh as ->.
  apply StronglySorted_inv in Hs as [_ Hx]. rewrite Forall_forall in Hx.
  apply elem_of_cons in Hy as [->|Hy]; [done|]. by apply Hx.
Qed.

Lemma sorted_take {A} (R : relation A) n (l : list A) :
  StronglySorted R l → StronglySorted R (take n l).
Proof.
  intros Hs. rewrite <- (take_drop n l) in Hs.
  by apply StronglySorted_app_1_l in Hs.
Qed.

Lemma by_scan_timestamp_desc_spec a b :
  by_scan_timestamp_desc a b
  = (Z.of_nat (scan_timestamp b) - Z.of_nat (scan_timestamp a))%Z.
Proof. done. Qed.

Lemma by_timestamp_desc_spec a b :
  by_timestamp_desc a b = (Z.of_nat (v_timestamp b) - Z.of_nat (v_timestamp a))%Z.
Proof. done. Qed.

Lemma by_lastSeen_desc_spec a b :
  by_lastSeen_desc a b
  = (Z.of_nat (s_lastSeen (row_script b)) - Z.of_nat (s_lastSeen (row_script a)))%Z.
Proof. done. Qed.

Lemma getTargetScans_length st targetId limit :
  length (getTargetScans st targetId limit)
  = limit `min`
    length (List.filter (λ s, scan_targetId s =? targetId) (scans (db st))).
Proof.
  unfold getTargetScans. rewrite length_take.
  by rewrite (Permutation_length (sort_perm by_scan_timestamp_desc _)).
Qed.

(** [getTargetScans] returns the [limit] most recent scans of the target, or
    all of them if there are fewer: as many as that, each one a scan of the
    store with that target id, the newest timestamp first. *)
Theorem getTargetScans_spec st targetId limit :
  length (getTargetScans st targetId limit)
  = limit `min`
    length (List.filter (λ s, scan_targetId s =? targetId) (scans (db st))) ∧
  (∀ scan, scan ∈ getTargetScans st targetId limit →
     scan ∈ scans (db st) ∧ scan_targetId scan = targetId) ∧
  StronglySorted (λ a b, scan_timestamp b ≤ scan_timestamp a)
                 (getTargetScans st targetId limit) ∧
  (∀ scan other,
     scan ∈ getTargetScans st targetId limit →
     other ∈ scans (db st) → scan_targetId other = targetId →
     other ∉ getTargetScans st targetId limit →
     scan_timestamp other ≤ scan_timestamp scan).
Proof.
  split; [apply getTargetScans_length|]. unfold getTargetScans.
  set (mine := List.filter _ (scans (db st))).
  pose proof (sort_sorted by_scan_timestamp_desc scan_timestamp
                by_scan_timestamp_desc_spec mine) as Hs.
  pose proof (sort_perm by_scan_timestamp_desc mine) as Hp.
  split_and!.
  - intros scan Hin.
    assert (scan ∈ mine) as Hm.
    { rewrite <- Hp, <- (take_drop limit (sort _ _)). apply elem_of_app. by left. }
    apply list_elem_of_In, filter_In in Hm as [Hm Ht].
    split; [by apply list_elem_of_In | by apply Nat.eqb_eq].
  - by apply sorted_take.
  - intros scan other Hin Hother Ht Hnot.
    assert (other ∈ sort by_scan_timestamp_desc mine) as Ho.
    { rewrite Hp. apply list_elem_of_In, filter_In.
      split; [by apply list_elem_of_In | by apply Nat.eqb_eq]. }
    rewrite <- (take_drop limit (sort by_scan_timestamp_desc mine)) in Ho, Hs.
    apply elem_of_app in Ho as [Ho|Ho]; [done|].
    by eapply (StronglySorted_app_1_elem_of _ _ _ scan other) in Hs.
Qed.

Lemma script_row_spec st script :
  row_script (script_row st script) = script ∧
  version_count (script_row st script) = length (versions_of st (s_id script)) ∧
  match latest_version (script_row st script) with
  | Some ts =>
      (∃ v, v ∈ versions_of st (s_id script) ∧ v_timestamp v = ts) ∧
      ∀ v, v ∈ versions_of st (s_id script) → v_timestamp v ≤ ts
  | None => versions_of st (s_id script) = []
  end.
Proof.
  unfold script_row. cbn [row_script version_count latest_version].
  split_and!; [done..|].
  set (vs := versions_of st (s_id script)).
  pose proof (sort_sorted by_timestamp_desc v_timestamp by_timestamp_desc_spec vs) as Hs.
  pose proof (sort_perm by_timestamp_desc vs) as Hp.
  destruct (Nat.ltb_spec 0 (length vs)) as [Hlen|Hlen].
  - destruct (sort by_timestamp_desc vs) as [|v0 l] eqn:Hsort.
    { apply Permutation_length in Hp. simpl in Hp. lia. }
    cbn [head fmap option_fmap option_map]. split.
    + exists v0. split; [|done]. rewrite <- Hp. apply elem_of_cons. by left.
    + intros v Hv. rewrite <- Hp in Hv.
      by apply (sorted_head_max v_timestamp (v0 :: l) v0).
  - destruct vs; [done|simpl in Hlen; lia].
Qed.

(** [getTargetScripts] has one row for every script record of the target and
    no other row, last seen first; a row counts the versions of its script
    and reports the largest timestamp among them, or nothing when the script
    has no version. *)
Theorem getTargetScripts_spec st targetId :
  row_script <$> getTargetScripts st targetId
  ≡ₚ List.filter (λ script, s_targetId script =? targetId)
                 (map_to_list (scripts (db st))).*2 ∧
  StronglySorted (λ a b, s_lastSeen (row_script b) ≤ s_lastSeen (row_script a))
                 (getTargetScripts st targetId) ∧
  (∀ row, row ∈ getTargetScripts st targetId →
     (∃ k, scripts (db st) !! k = Some (row_script row)) ∧
     s_targetId (row_script row) = targetId ∧
     version_count row = length (versions_of st (s_id (row_script row))) ∧
     match latest_version row with
     | Some ts =>
         (∃ v, v ∈ versions_of st (s_id (row_script row)) ∧ v_timestamp v = ts) ∧
         ∀ v, v ∈ versions_of st (s_id (row_script row)) → v_timestamp v ≤ ts
     | None => versions_of st (s_id (row_script row)) = []
     end).
Proof.
  unfold getTargetScripts.
  set (mine := List.filter _ (map_to_list (scripts (db st))).*2).
  pose proof (sort_perm by_lastSeen_desc (script_row st <$> mine)) as Hp.
  split_and!.
  - rewrite Hp, <- list_fmap_compose.
    rewrite (list_fmap_ext _ id mine); [by rewrite list_fmap_id|].
    intros i script _. apply script_row_spec.
  - apply (sort_sorted by_lastSeen_desc (λ r, s_lastSeen (row_script r))
             by_lastSeen_desc_spec).
  - intros row Hrow. rewrite Hp in Hrow.
    apply list_elem_of_fmap in Hrow as (script & -> & Hin).
    destruct (script_row_spec st script) as (Hr & Hc & Hl). rewrite Hr.
    apply list_elem_of_In, filter_In in Hin as [Hin Ht].
    apply list_elem_of_In, list_elem_of_fmap in Hin as ([k s0] & -> & Hin).
    apply elem_of_map_to_list in Hin.
    split_and!; [by exists k|by apply Nat.eqb_eq|done..].
Qed.

(** Every row of [getAllTargets] belongs to a target record; its
    [script_count] is the number of script records of the target, while its
    [scan_count] is the number of scans of the target only up to 10, the
    default limit of [getTargetScans]. *)
Theorem target_rows_counts st row :
  row ∈ target_rows st →
  (∃ domain, targets (db st) !! domain = Some (row_target row)) ∧
  last_scan row = t_lastScan (row_target row) ∧
  script_count row
  = length (List.filter (λ script, s_targetId script =? t_id (row_target row))
                        (map_to_list (scripts (db st))).*2) ∧
  scan_count row
  = 10 `min`
    length (List.filter (λ s, scan_targetId s =? t_id (row_target row))
                        (scans (db st))).
Proof.
  unfold target_rows. intros (t & -> & Hin)%list_elem_of_fmap.
  apply list_elem_of_fmap in Hin as ([d t0] & -> & Hin).
  apply elem_of_map_to_list in Hin.
  unfold target_row. cbn [row_target last_scan script_count scan_count snd].
  split_and!; [by exists d|done| |apply getTargetScans_length].
  unfold getTargetScripts.
  by rewrite (Permutation_length (sort_perm by_lastSeen_desc _)), length_fmap.
Qed.
End projections.

(** ** Targets and scans *)

Section targets_and_scans.
Import Storage.


Lemma touch_target_spec targetId ts (m : gmap string Target) :
  (∀ d1 d2 t1 t2, m !! d1 = Some t1 → m !! d2 = Some t2 →
                  t_id t1 = t_id t2 → d1 = d2) →
  ∀ d, touch_target targetId ts m !! d
       = (λ t, if t_id t =? targetId then set_lastScan ts t else t) <$> m !! d.
Proof.
  intros Hinj d. unfold touch_target.
  destruct (List.find _ (map_to_list m)) as [[d0 t0]|] eqn:Hf.
  - apply find_some in Hf as [Hin Hid]. simpl in Hid. apply Nat.eqb_eq in Hid.
    apply list_elem_of_In, elem_of_map_to_list in Hin.
    rewrite lookup_insert. case_decide as Hd.
    + subst d. rewrite Hin. simpl. by rewrite (proj2 (Nat.eqb_eq _ _) Hid).
    + destruct (m !! d) as [t|] eqn:Ht; [|done]. simpl.
      destruct (Nat.eqb_spec (t_id t) targetId) as [Heq|]; [|done].
      exfalso. apply Hd. eapply Hinj; [done..|congruence].
  - destruct (m !! d) as [t|] eqn:Ht; [|done]. simpl.
    destruct (Nat.eqb_spec (t_id t) targetId) as [Heq|]; [|done].
    eapply find_none in Hf; [|by apply list_elem_of_In, elem_of_map_to_list].
    simpl in Hf. apply Nat.eqb_neq in Hf. done.
Qed.

(** In a store built through the operations, [createScan] returns the value
    of the scan counter, appends the scan record with that id, stamps the
    target that has the given id (and no other target) with the time of the
    scan, and leaves scripts, versions and content files alone. *)
Theorem createScan_spec hashContent dir st now targetId url scriptCount totalSize :
  reachable hashContent dir st →
  let c := createScan now targetId url scriptCount totalSize st in
  c.1 = next_scan (nextId (db st)) ∧
  scans (db c.2)
  = scans (db st) ++ [MkScan c.1 targetId url now scriptCount totalSize] ∧
  (∀ d, targets (db c.2) !! d
        = (λ t, if t_id t =? targetId then set_lastScan now t else t)
          <$> targets (db st) !! d) ∧
  scripts (db c.2) = scripts (db st) ∧
  scriptVersions (db c.2) = scriptVersions (db st) ∧
  files c.2 = files st.
Proof.
  intros Hreach c. subst c. pose proof (reachable_wf _ _ _ Hreach) as Hwf.
  unfold createScan. cbn [fst snd saveDb set_db db scans targets].
  split_and!; try done.
  apply touch_target_spec. apply (wf_targets_inj st Hwf).
Qed.

Lemma sorted_filter {A B} (R : relation B) (f : A → B) (p : A → bool) l :
  StronglySorted R (f <$> l) → StronglySorted R (f <$> List.filter p l).
Proof.
  induction l as [|x l IH]; [done|]. rewrite fmap_cons. intros Hs.
  apply StronglySorted_inv in Hs as [Hs Hx]. cbn [List.filter].
  destruct (p x); [|by apply IH]. rewrite fmap_cons. constructor; [by apply IH|].
  rewrite Forall_forall in Hx |- *. intros y (a & -> & Ha)%list_elem_of_fmap.
  apply Hx. apply list_elem_of_fmap. exists a. split; [done|].
  apply list_elem_of_In. apply list_elem_of_In, filter_In in Ha. tauto.
Qed.

Lemma Forall_filter_fmap {A B} (P : B → Prop) (f : A → B) (p : A → bool) l :
  Forall P (f <$> l) → Forall P (f <$> List.filter p l).
Proof.
  rewrite !Forall_forall. intros H y (a & -> & Ha)%list_elem_of_fmap.
  apply H. apply list_elem_of_fmap. exists a. split; [done|].
  apply list_elem_of_In. apply list_elem_of_In, filter_In in Ha. tauto.
Qed.

Lemma reachable_scans_ordered hashContent dir st :
  reachable hashContent dir st → scans_ordered st.
Proof.
  induction 1 as [| st now domain _ IH | st now tid url n1 n2 _ IH
                  | st now tid scan sd ni _ IH | st u domain _ IH | st path _ IH].
  - split; constructor.
  - unfold getOrCreateTarget. by destruct (lookup_target _ _).
  - destruct IH as [Hs Hb]. unfold scans_ordered, createScan.
    cbn [snd saveDb set_db db scans nextId next_scan]. rewrite fmap_app. split.
    + apply StronglySorted_app_2; [|done|repeat constructor].
      intros x1 x2 Hx1 ->%list_elem_of_singleton.
      rewrite Forall_forall in Hb. by apply Hb.
    + apply Forall_app. split; [|repeat constructor].
      eapply Forall_impl; [done|]. intros x Hx. simpl in Hx. lia.
  - unfold storeScript. destruct (_ !! _); destruct (List.find _ _); done.
  - unfold removeTarget. destruct (lookup_target _ _) as [t| |]; [|done..].
    destruct (foldl _ _ _) as [[ss vss] f]. destruct IH as [Hs Hb].
    split; cbn [snd saveDb db scans nextId].
    + by apply sorted_filter.
    + by apply Forall_filter_fmap.
  - done.
Qed.

(** Scan ids are assigned in increasing order and never reused: in every
    store built through the operations the ids in [db.scans] increase
    strictly along the list and are below the scan counter. *)
Theorem scan_ids_increase hashContent dir st :
  reachable hashContent dir st →
  StronglySorted lt (scan_id <$> scans (db st)) ∧
  Forall (λ i, i < next_scan (nextId (db st))) (scan_id <$> scans (db st)).
Proof. apply reachable_scans_ordered. Qed.

(** Every mutating call ends with [saveDb]: in every store built through
    the operations the metadata on disk is the metadata in memory. *)
Theorem metadata_is_saved hashContent dir st :
  reachable hashContent dir st → disk st = db st.
Proof.
  induction 1 as [| st now domain _ IH | st now tid url n1 n2 _ IH
                  | st now tid scan sd ni _ IH | st u domain _ IH | st path _ IH];
    try done.
  - unfold getOrCreateTarget. by destruct (lookup_target _ _).
  - unfold storeScript. destruct (_ !! _); destruct (List.find _ _); done.
  - unfold removeTarget. destruct (lookup_target _ _) as [t| |]; [|done..].
    by destruct (foldl _ _ _) as [[ss vss] f].
Qed.
End targets_and_scans.

(** ** What [storeScript] leaves behind *)

Section store_effects.
Import Storage.
Variable hashContent : string → string.

(** The content files after a call. *)
Lemma storeScript_files now tid scan sd ni st :
  let c := storeScript hashContent now tid scan sd ni st in
  files c.2
  = if isNewVersion c.1
    then <[contentPath (scriptsDir st) (versionId c.1) := sd_content sd]> (files st)
    else files st.
Proof.
  intros c. subst c. unfold storeScript.
  destruct (_ !! _); destruct (List.find _ _); done.
Qed.

(** The version lists of the other scripts after a call. *)
Lemma storeScript_other_lists now tid scan sd ni st key :
  let c := storeScript hashContent now tid scan sd ni st in
  key ≠ pretty (scriptId c.1) →
  scriptVersions (db c.2) !! key = scriptVersions (db st) !! key.
Proof.
  intros c. subst c. unfold storeScript.
  destruct (_ !! _); destruct (List.find _ _); cbn; intros Hne;
    by rewrite lookup_insert_ne.
Qed.

(** The script records after a call. *)
Lemma storeScript_scripts now tid scan sd ni st k :
  let c := storeScript hashContent now tid scan sd ni st in
  let key := scriptKey tid (Normalizer.identifier ni) in
  scripts (db c.2) !! k
  = if decide (k = key)
    then Some (match scripts (db st) !! key with
               | Some script => set_lastSeen now script
               | None =>
                   MkScript (next_script (nextId (db st))) tid (sd_url sd)
                            (Normalizer.normalized ni) (Normalizer.identifier ni)
                            (Normalizer.filename ni) now now
               end)
    else scripts (db st) !! k.
Proof.
  intros c key. subst c. unfold storeScript. fold key.
  destruct (scripts (db st) !! key) eqn:Hk; destruct (List.find _ _); cbn;
    rewrite lookup_insert; repeat case_decide; by simplify_eq.
Qed.

Lemma storeScript_list now tid scan sd ni st :
  let c := storeScript hashContent now tid scan sd ni st in
  scriptVersions (db c.2) !! pretty (scriptId c.1)
  = Some (versions_of c.2 (scriptId c.1)).
Proof.
  intros c. subst c. unfold storeScript.
  destruct (scripts (db st) !! _); destruct (List.find _ _);
    unfold versions_of; cbn; by rewrite lookup_insert_eq.
Qed.

(** Version lists only grow, and only at their end: a call keeps every list
    as a prefix of what it becomes; a list that changed is the list of the
    script the call resolved to, and the call reported a new version.  The
    record of a script that was already known keeps all its fields except
    [lastSeen]; the other script records, the targets and the scans are
    untouched. *)
Theorem storeScript_append_only now tid scan sd ni st :
  let c := storeScript hashContent now tid scan sd ni st in
  let key := scriptKey tid (Normalizer.identifier ni) in
  (∀ sid, versions_of st sid `prefix_of` versions_of c.2 sid) ∧
  (∀ sid, versions_of c.2 sid ≠ versions_of st sid →
          sid = scriptId c.1 ∧ isNewVersion c.1 = true) ∧
  (∀ script, scripts (db st) !! key = Some script →
             scripts (db c.2) !! key = Some (set_lastSeen now script)) ∧
  (∀ k, k ≠ key → scripts (db c.2) !! k = scripts (db st) !! k) ∧
  targets (db c.2) = targets (db st) ∧
  scans (db c.2) = scans (db st).
Proof.
  intros c key.
  destruct (storeScript_result hashContent now tid scan sd ni st)
    as (Hsid & _ & _ & Hv).
  fold c in Hsid, Hv. rewrite <- Hsid in Hv.
  assert (∀ sid, sid ≠ scriptId c.1 → versions_of c.2 sid = versions_of st sid)
    as Hother.
  { intros sid Hne. unfold versions_of.
    rewrite (storeScript_other_lists now tid scan sd ni st); [done|].
    intros Heq%(inj pretty). done. }
  split_and!.
  - intros sid. destruct (decide (sid = scriptId c.1)) as [->|Hne].
    + destruct (List.find _ _); destruct Hv as (_ & _ & ->);
        [done|by apply prefix_app_r].
    + by rewrite Hother.
  - intros sid Hch. destruct (decide (sid = scriptId c.1)) as [->|Hne].
    + split; [done|]. destruct (List.find _ _); destruct Hv as (? & _ & Hl);
        [by rewrite Hl in Hch|done].
    + by rewrite Hother in Hch.
  - intros script Hs. subst c. rewrite storeScript_scripts. fold key.
    rewrite decide_True by done. by rewrite Hs.
  - intros k Hk. subst c. rewrite storeScript_scripts. fold key.
    by rewrite decide_False.
  - clear Hsid Hv Hother. subst c. unfold storeScript.
    destruct (scripts (db st) !! _); destruct (List.find _ _); reflexivity.
  - clear Hsid Hv Hother. subst c. unfold storeScript.
    destruct (scripts (db st) !! _); destruct (List.find _ _); reflexivity.
Qed.

(** The version a call has just created, as it stands in the list. *)
Lemma storeScript_new_version now tid scan sd ni st :
  let c := storeScript hashContent now tid scan sd ni st in
  isNewVersion c.1 = true →
  versionId c.1 = next_version (nextId (db st)) ∧
  versions_of c.2 (scriptId c.1)
  = versions_of st (scriptId c.1) ++
    [MkVersion (versionId c.1) (scriptId c.1) scan (contentHash c.1)
               (contentPath (scriptsDir st) (versionId c.1))
               (sd_size sd) (sd_url sd) now].
Proof.
  intros c Hnew.
  destruct (storeScript_result hashContent now tid scan sd ni st)
    as (Hsid & _ & _ & Hv).
  fold c in Hsid, Hv. rewrite <- Hsid in Hv.
  assert (contentHash c.1 = hashContent (sd_content sd)) as ->.
  { clear. subst c. unfold storeScript.
    destruct (scripts (db st) !! _); destruct (List.find _ _); reflexivity. }
  destruct (List.find _ _).
  - destruct Hv as (Hf & _). congruence.
  - destruct Hv as (_ & -> & ->). done.
Qed.

(** Store, then read back: the version a call has created is found under the
    id the call returned, with the scan, hash, size, URL and time of the
    call, and with the content that was stored. *)
Theorem storeScript_then_getVersionContent dir now tid scan sd ni st :
  reachable hashContent dir st →
  let c := storeScript hashContent now tid scan sd ni st in
  isNewVersion c.1 = true →
  getVersionContent c.2 (versionId c.1)
  = Some (MkVersion (versionId c.1) (scriptId c.1) scan (contentHash c.1)
                    (contentPath dir (versionId c.1)) (sd_size sd) (sd_url sd) now,
          Some (sd_content sd)).
Proof.
  intros Hreach c Hnew.
  pose proof (reachable_wf _ _ _ Hreach) as Hwf.
  pose proof (reachable_scriptsDir _ _ _ Hreach) as Hdir.
  pose proof (wf_storeScript hashContent now tid scan sd ni st Hwf) as Hwf'.
  fold c in Hwf'.
  destruct (storeScript_new_version now tid scan sd ni st Hnew) as [Hid Hl].
  pose proof (storeScript_list now tid scan sd ni st) as Hlist.
  pose proof (storeScript_files now tid scan sd ni st) as Hfiles.
  cbv zeta in Hlist, Hfiles.
  fold c in Hid, Hl, Hlist, Hfiles. rewrite Hnew in Hfiles. rewrite Hdir in Hl, Hfiles.
  set (v := MkVersion _ _ _ _ _ _ _ _) in *.
  assert (v ∈ versions_of c.2 (scriptId c.1)) as Hv.
  { rewrite Hl. apply elem_of_app. right. by apply list_elem_of_singleton. }
  unfold getVersionContent.
  change (versionId c.1) with (v_id v) at 1.
  rewrite (find_version_unique _ (pretty (scriptId c.1))
             (versions_of c.2 (scriptId c.1)) v).
  - unfold has_file. cbn [v_contentFile v]. rewrite Hfiles, lookup_insert_eq.
    rewrite contentPath_nonempty. cbn [andb].
    by rewrite bool_decide_eq_true_2.
  - by apply elem_of_map_to_list.
  - done.
  - intros key' vs' v' Hl'%elem_of_map_to_list Hv' Hidv.
    assert (key' = pretty (scriptId c.1)) as ->
      by by eapply (wf_versions_disj c.2 Hwf').
    assert (vs' = versions_of c.2 (scriptId c.1)) as -> by congruence.
    eapply (NoDup_fmap_elem v_id); [by apply wf_versions_of_nodup|done..].
Qed.

(* The previous version of a version that [storeScript] has just created;
   the scan loop relies on it as well. *)
Lemma store_then_previous dir now tid scan sd ni st :
  reachable hashContent dir st →
  let c := storeScript hashContent now tid scan sd ni st in
  isNewVersion c.1 = true →
  (versions_of st (scriptId c.1) = [] →
   getPreviousVersion c.2 (scriptId c.1) (versionId c.1) = None) ∧
  (∀ prev,
     prev ∈ versions_of st (scriptId c.1) →
     (∀ v, v ∈ versions_of st (scriptId c.1) → v_id v ≤ v_id prev) →
     getPreviousVersion c.2 (scriptId c.1) (versionId c.1)
     = (λ content, (prev, content)) <$> files st !! v_contentFile prev).
Proof.
  intros Hreach c Hnew.
  pose proof (reachable_wf _ _ _ Hreach) as Hwf.
  pose proof (wf_storeScript hashContent now tid scan sd ni st Hwf) as Hwf'.
  fold c in Hwf'.
  destruct (storeScript_new_version now tid scan sd ni st Hnew) as [Hid Hl].
  pose proof (storeScript_files now tid scan sd ni st) as Hfiles.
  cbv zeta in Hfiles.
  fold c in Hid, Hl, Hfiles. rewrite Hnew in Hfiles.
  set (v := MkVersion _ _ _ _ _ _ _ _) in *.
  pose proof (wf_versions_of_nodup c.2 (scriptId c.1) Hwf') as Hnd.
  split.
  - intros Hnil. apply previous_of_oldest; [done|].
    rewrite Hl, Hnil. intros v' ->%list_elem_of_singleton. done.
  - intros prev Hprev Hmax.
    destruct (wf_versions_of _ _ _ Hwf Hprev) as [Hlt Hpath].
    rewrite (previous_next_smaller c.2 (scriptId c.1) (versionId c.1) v prev).
    + assert (files c.2 !! v_contentFile prev = files st !! v_contentFile prev) as Hf.
      { rewrite Hfiles, Hpath, lookup_insert_ne; [done|].
        intros Heq%contentPath_inj. lia. }
      unfold has_file. rewrite Hf, Hpath, contentPath_nonempty. cbn [andb].
      destruct (files st !! contentPath (scriptsDir st) (v_id prev)) eqn:Hc; [|done].
      by rewrite bool_decide_eq_true_2.
    + done.
    + rewrite Hl. apply elem_of_app. right. by apply list_elem_of_singleton.
    + done.
    + rewrite Hl. apply elem_of_app. by left.
    + lia.
    + intros v' Hv' Hlt'. rewrite Hl in Hv'.
      apply elem_of_app in Hv' as [Hv'| ->%list_elem_of_singleton];
        [by apply Hmax | simpl in Hlt'; lia].
Qed.

(** Store, then ask for the previous version: for the version a call of
    [storeScript] has created, [getPreviousVersion] returns nothing when the
    script had no version before the call, and otherwise the version that
    had the largest id before the call, together with its content if that
    content file is present (nothing if the file is absent). *)
Theorem storeScript_then_getPreviousVersion dir now tid scan sd ni st :
  reachable hashContent dir st →
  let c := storeScript hashContent now tid scan sd ni st in
  isNewVersion c.1 = true →
  (versions_of st (scriptId c.1) = [] →
   getPreviousVersion c.2 (scriptId c.1) (versionId c.1) = None) ∧
  (∀ prev,
     prev ∈ versions_of st (scriptId c.1) →
     (∀ v, v ∈ versions_of st (scriptId c.1) → v_id v ≤ v_id prev) →
     getPreviousVersion c.2 (scriptId c.1) (versionId c.1)
     = (λ content, (prev, content)) <$> files st !! v_contentFile prev).
Proof. apply store_then_previous. Qed.
End store_effects.

(** ** Content integrity *)

Section integrity.
Import Storage.
Variable hashContent : string → string.

Lemma built_reachable dir st : built hashContent dir st → reachable hashContent dir st.
Proof. induction 1; by constructor. Qed.

(** A file whose version stays in the metadata is not unlinked by the loop
    of [removeTarget]. *)
Lemma kept_file st tid key vs v :
  wf st → scriptVersions (db st) !! key = Some vs → v ∈ vs →
  removes_list tid (map_to_list (scripts (db st))) key = false →
  removes_file tid (map_to_list (scripts (db st))) (scriptVersions (db st))
               (v_contentFile v) = false.
Proof.
  intros Hwf Hl Hv Hkeep.
  destruct (removes_file _ _ _ _) eqn:Hr; [exfalso|done].
  apply removes_file_true in Hr as (k2 & s2 & Hs2 & Ht2 & Hu).
  apply unlinked_true in Hu as (v2 & Hv2 & Hpath & _).
  change (v2 ∈ versions_of st (s_id s2)) in Hv2.
  destruct (wf_versions_of _ _ _ Hwf Hv2) as [_ Hp2].
  destruct (wf_versions st Hwf _ _ _ Hl Hv) as [_ Hp].
  rewrite Hp, Hp2 in Hpath. apply contentPath_inj in Hpath.
  apply versions_of_lookup in Hv2 as (vs2 & Hl2 & Hin2).
  pose proof (wf_versions_disj st Hwf _ _ _ _ _ _ Hl2 Hl Hin2 Hv Hpath) as <-.
  assert (removes_list tid (map_to_list (scripts (db st))) (pretty (s_id s2)) = true);
    [|congruence].
  apply removes_list_true. by exists k2, s2.
Qed.

Lemma intact_storeScript now tid scan sd ni st :
  wf st → intact hashContent st →
  intact hashContent (storeScript hashContent now tid scan sd ni st).2.
Proof.
  intros Hwf Hint. set (c := storeScript hashContent now tid scan sd ni st).
  pose proof (storeScript_files hashContent now tid scan sd ni st) as Hfiles.
  pose proof (storeScript_list hashContent now tid scan sd ni st) as Hlist.
  cbv zeta in Hfiles, Hlist. fold c in Hfiles, Hlist.
  assert (∀ key vs v, scriptVersions (db st) !! key = Some vs → v ∈ vs →
            ∃ content, files c.2 !! v_contentFile v = Some content ∧
                       hashContent content = v_contentHash v) as Hold.
  { intros key vs v Hl Hv. destruct (Hint _ _ _ Hl Hv) as (content & Hf & Hh).
    exists content. split; [|done]. rewrite Hfiles.
    destruct (isNewVersion c.1) eqn:Hnew; [|done].
    destruct (storeScript_new_version hashContent now tid scan sd ni st Hnew)
      as [Hid _]. fold c in Hid.
    destruct (wf_versions st Hwf _ _ _ Hl Hv) as [Hlt Hp].
    rewrite lookup_insert_ne; [done|]. rewrite Hp.
    intros Heq%contentPath_inj. lia. }
  intros key vs v Hl Hv.
  destruct (decide (key = pretty (scriptId c.1))) as [->|Hne].
  2:{ rewrite (storeScript_other_lists hashContent now tid scan sd ni st) in Hl
        by done. by eapply Hold. }
  rewrite Hlist in Hl. injection Hl as <-.
  destruct (isNewVersion c.1) eqn:Hnew.
  - destruct (storeScript_new_version hashContent now tid scan sd ni st Hnew)
      as [Hid Hl]. fold c in Hid, Hl. rewrite Hl in Hv.
    apply elem_of_app in Hv as [Hv| ->%list_elem_of_singleton].
    + apply versions_of_lookup in Hv as (vs0 & Hl0 & Hv0). by eapply Hold.
    + exists (sd_content sd). cbn [v_contentFile v_contentHash].
      rewrite Hfiles, ?Hnew, lookup_insert_eq. split; [done|].
      subst c. clear. unfold storeScript.
      destruct (scripts (db st) !! _); destruct (List.find _ _); reflexivity.
  - destruct (storeScript_result hashContent now tid scan sd ni st)
      as (Hsid & _ & _ & Hres).
    fold c in Hsid, Hres. rewrite <- Hsid in Hres.
    destruct (List.find _ _).
    + destruct Hres as (_ & _ & Heq). rewrite Heq in Hv.
      apply versions_of_lookup in Hv as (vs0 & Hl0 & Hv0). by eapply Hold.
    + destruct Hres as (Hn & _). congruence.
Qed.

Lemma intact_removeTarget u domain st :
  wf st → intact hashContent st →
  intact hashContent (removeTarget u domain st).2.
Proof.
  intros Hwf Hint.
  destruct (targets (db st) !! domain) as [t|] eqn:Ht.
  2:{ rewrite removeTarget_unknown by done. by destruct (inherited domain). }
  destruct (removeTarget_known u st domain t Hwf Ht)
    as (ss' & vss' & f' & -> & Hss & Hvss & Hf).
  intros key vs v Hl Hv. cbn [snd saveDb db files scriptVersions] in *.
  rewrite Hvss in Hl.
  destruct (removes_list _ _ key) eqn:Hr; [done|].
  destruct (Hint _ _ _ Hl Hv) as (content & Hc & Hh).
  exists content. split; [|done]. rewrite Hf.
  by rewrite (kept_file st (t_id t) key vs v).
Qed.

Lemma built_intact dir st : built hashContent dir st → intact hashContent st.
Proof.
  induction 1 as [| st now domain Hb IH | st now tid url n1 n2 Hb IH
                  | st now tid scan sd ni Hb IH | st u domain Hb IH].
  - intros key vs v Hl. cbn in Hl. by rewrite lookup_empty in Hl.
  - unfold getOrCreateTarget. by destruct (lookup_target _ _).
  - done.
  - apply intact_storeScript; [|done]. by eapply reachable_wf, built_reachable.
  - apply intact_removeTarget; [|done]. by eapply reachable_wf, built_reachable.
Qed.

(** As long as nothing but the store touches the content files, every
    version record has its content file, and the file holds a text whose
    hash is the one recorded in the version. *)
Theorem content_files_match_hashes dir st key vs v :
  built hashContent dir st →
  scriptVersions (db st) !! key = Some vs → v ∈ vs →
  ∃ content, files st !! v_contentFile v = Some content ∧
             hashContent content = v_contentHash v.
Proof. intros Hb. by apply (built_intact dir st Hb). Qed.
End integrity.

(** ** One script, stored again and again *)

Section store_script_claims.
Import Regex Storage.
Variable hashContent : string → string.









(** C10.  A call of [storeScript] creates the script exactly when no record
    sits under the key of the target id and identifier.  It then also
    creates a version: the script gets the value of the script counter as
    its id and the version the value of the version counter, both counters
    move on by one, the new script record is written under the key, the
    script's version list, empty before, holds the one new version with the
    hash, size and URL of the content, and the content is written to the
    file named after the version id. *)
Theorem storeScript_new_script_new_version dir st now tid scan sd ni :
  reachable hashContent dir st →
  let c := storeScript hashContent now tid scan sd ni st in
  let key := scriptKey tid (Normalizer.identifier ni) in
  (isNewScript c.1 = true ↔ scripts (db st) !! key = None) ∧
  (isNewScript c.1 = true →
   isNewVersion c.1 = true ∧
   scriptId c.1 = next_script (nextId (db st)) ∧
   versionId c.1 = next_version (nextId (db st)) ∧
   next_script (nextId (db c.2)) = S (scriptId c.1) ∧
   next_version (nextId (db c.2)) = S (versionId c.1) ∧
   scripts (db c.2) !! key
   = Some (MkScript (scriptId c.1) tid (sd_url sd) (Normalizer.normalized ni)
                    (Normalizer.identifier ni) (Normalizer.filename ni) now now) ∧
   versions_of st (scriptId c.1) = [] ∧
   versions_of c.2 (scriptId c.1)
   = [MkVersion (versionId c.1) (scriptId c.1) scan (hashContent (sd_content sd))
                (contentPath dir (versionId c.1)) (sd_size sd) (sd_url sd) now] ∧
   files c.2 !! contentPath dir (versionId c.1) = Some (sd_content sd)).
Proof.
  intros Hreach c key. pose proof (reachable_wf _ _ _ Hreach) as Hwf.
  pose proof (reachable_scriptsDir _ _ _ Hreach) as Hdir.
  destruct (storeScript_result hashContent now tid scan sd ni st)
    as (_ & Hnew & _ & _).
  fold c key in Hnew. rewrite Hnew. split; [apply bool_decide_eq_true|].
  intros Hnone%bool_decide_eq_true.
  assert (versions_of st (next_script (nextId (db st))) = []) as Hnil.
  { unfold versions_of.
    destruct (scriptVersions (db st) !! _) as [vs|] eqn:Hl; [|done]. exfalso.
    destruct (wf_lists st Hwf _ _ Hl) as (k & s & Hs & Heq%(inj pretty)).
    pose proof (wf_scripts st Hwf _ _ Hs). lia. }
  subst c. unfold storeScript. fold key. rewrite Hnone. cbn [s_id].
  fold (versions_of st (next_script (nextId (db st)))). rewrite Hnil.
  cbn [List.find fst snd scriptId versionId isNewVersion saveDb db files nextId
       next_script next_version scripts app].
  rewrite Hdir.
  split_and!; try done; unfold versions_of;
    cbn [saveDb db files scripts scriptVersions]; by rewrite lookup_insert_eq.
Qed.
End store_script_claims.

Section store_script_examples.
Import Storage Examples Fixtures.


Lemma storeScript_new_script_new_version_witness :
  let c := store_X in
  isNewVersion c.1 = true ∧
  scriptId c.1 = 1 ∧ versionId c.1 = 1 ∧
  next_script (nextId (db c.2)) = 2 ∧ next_version (nextId (db c.2)) = 2 ∧
  scripts (db c.2) !! scriptKey 1 "https://a.com/main.js"
  = Some (MkScript 1 1 "https://a.com/main.1a2b3c4d.js"
                   "https://a.com/main.[hash].js" "https://a.com/main.js"
                   "main.[hash].js" 5 5) ∧
  versions_of (empty_store example_dir) 1 = [] ∧
  versions_of c.2 1 = [version_X] ∧
  files c.2 !! "/data/scripts/1.js" = Some "X".
Proof.
  apply (storeScript_new_script_new_version example_hash example_dir
           (empty_store example_dir) 5 1 1
           (MkScriptData "https://a.com/main.1a2b3c4d.js" "X" 1) main_js).
  - apply reach_empty.
  - reflexivity.
Defined.
End store_script_examples.

(** ** A step of [scan] *)

Section scan_step.
Import Normalizer Differ Storage Monitor.

Lemma find_all_false {A} (p : A → bool) (l : list A) :
  (∀ x, x ∈ l → p x = false) → List.find p l = None.
Proof.
  induction l as [|x l IH]; intros H; [done|]. simpl.
  rewrite H by (apply elem_of_cons; by left).
  apply IH. intros y Hy. apply H, elem_of_cons. by right.
Qed.

(** When a scan meets new content for a script it already knows, it diffs
    the new content against the stored content of the version of that script
    with the largest id, reports the script as updated and not as new, and
    records the same statistics in the list of changes. *)
Theorem scan_step_diffs_against_latest
    parse hashContent format diffLines dir now targetId scanId script st s prev :
  built hashContent dir st →
  scripts (db st) !! scriptKey targetId (identifier (normalize parse (sd_url script)))
  = Some s →
  prev ∈ versions_of st (s_id s) →
  (∀ v, v ∈ versions_of st (s_id s) → v_id v ≤ v_id prev) →
  (∀ v, v ∈ versions_of st (s_id s) →
        v_contentHash v ≠ hashContent (sd_content script)) →
  ∃ content,
    files st !! v_contentFile prev = Some content ∧
    hashContent content = v_contentHash prev ∧
    let r := process_script parse hashContent format diffLines
                            now targetId scanId script st in
    sr_isNew r.1.1 = false ∧
    sr_hasNewVersion r.1.1 = true ∧
    sr_diff r.1.1
    = Some (stats (Differ.diff format diffLines true content (sd_content script))) ∧
    ce_stats <$> r.1.2 = sr_diff r.1.1.
Proof.
  intros Hb Hs Hprev Hmax Hhash.
  pose proof (built_reachable _ _ _ Hb) as Hreach.
  destruct (versions_of_lookup _ _ _ Hprev) as (vs & Hl & Hin).
  destruct (built_intact hashContent dir st Hb _ _ _ Hl Hin) as (content & Hc & Hh).
  exists content. split_and!; [done..|]. intros r. subst r.
  unfold process_script. cbn [fst snd sr_isNew sr_hasNewVersion sr_diff].
  set (ni := normalize parse (sd_url script)) in *.
  set (c := storeScript hashContent now targetId scanId script ni st).
  destruct (storeScript_result hashContent now targetId scanId script ni st)
    as (Hsid & Hnew & _ & Hv).
  fold c in Hsid, Hnew, Hv. rewrite Hs in Hsid, Hnew, Hv.
  rewrite find_all_false in Hv
    by (intros v Hv'; apply String.eqb_neq; by apply Hhash).
  destruct Hv as (Hnv & _).
  rewrite bool_decide_eq_false_2 in Hnew by done.
  rewrite Hnv, Hnew. cbn [andb negb].
  destruct (store_then_previous hashContent dir now targetId scanId script ni st
              Hreach Hnv) as [_ Hp].
  fold c in Hp. rewrite Hsid in Hp. rewrite Hsid.
  rewrite (Hp prev Hprev Hmax), Hc. done.
Qed.
End scan_step.

(** ** Small helpers *)

Section helpers.
Import Regex Normalizer Monitor Cli Extractor.

Lemma startsWith_append lit url : startsWith lit (lit +:+ url) = true.
Proof. unfold startsWith. by rewrite strip_prefix_append. Qed.

(** [normalizeUrl] leaves a URL that has an [http://] or [https://] scheme
    as it is and puts [https://] in front of any other; its result always
    has one of the two schemes, so applying it twice changes nothing more. *)
Theorem normalizeUrl_idempotent url :
  (startsWith "http://" (normalizeUrl url)
   || startsWith "https://" (normalizeUrl url)) = true ∧
  normalizeUrl (normalizeUrl url) = normalizeUrl url ∧
  ((startsWith "http://" url || startsWith "https://" url) = true →
   normalizeUrl url = url) ∧
  ((startsWith "http://" url || startsWith "https://" url) = false →
   normalizeUrl url = "https://" +:+ url).
Proof.
  assert ((startsWith "http://" url || startsWith "https://" url) = false →
          normalizeUrl url = "https://" +:+ url) as Hother.
  { intros Hu. unfold normalizeUrl.
    by destruct (startsWith "http://" url), (startsWith "https://" url). }
  assert (∀ u, (startsWith "http://" u || startsWith "https://" u) = true →
               normalizeUrl u = u) as Hfix.
  { intros u Hu. unfold normalizeUrl.
    by destruct (startsWith "http://" u), (startsWith "https://" u). }
  assert ((startsWith "http://" (normalizeUrl url)
           || startsWith "https://" (normalizeUrl url)) = true) as Hscheme.
  { unfold normalizeUrl.
    destruct (startsWith "http://" url) eqn:H1;
      destruct (startsWith "https://" url) eqn:H2; cbn [negb andb];
      rewrite ?H1, ?H2, ?startsWith_append, ?orb_true_r; done. }
  split_and!; [done|by apply Hfix|apply Hfix|done].
Qed.

(** [truncate] returns a text that fits as it is; a longer text is cut to
    its first [len - 3] code units followed by three dots, which makes
    exactly [len] code units when [len] is at least 3 and three otherwise. *)
Theorem truncate_length str len :
  (length str ≤ len → truncate str len = str) ∧
  (len < length str →
   truncate str len = take (len - 3) str ++ dots ∧
   length (truncate str len) = len `max` 3).
Proof.
  unfold truncate. split.
  - intros Hle. destruct str as [|c str]; [done|].
    by destruct (Nat.leb_spec (length (c :: str)) len); [|lia].
  - intros Hlt. destruct str as [|c str]; [simpl in Hlt; lia|].
    destruct (Nat.leb_spec (length (c :: str)) len); [lia|].
    split; [done|]. rewrite length_app, length_take.
    change (length dots) with 3. lia.
Qed.

Lemma lower_idempotent c : lower (lower c) = lower c.
Proof. destruct c as [[] [] [] [] [] [] [] []]; reflexivity. Qed.

Lemma toLowerCase_idempotent s : toLowerCase (toLowerCase s) = toLowerCase s.
Proof.
  induction s as [|c s IH]; [done|]. simpl. by rewrite lower_idempotent, IH.
Qed.

Lemma toLowerCase_append a b :
  toLowerCase (a +:+ b) = toLowerCase a +:+ toLowerCase b.
Proof.
  induction a as [|c a IH]; [done|]. rewrite append_cons. simpl.
  by rewrite IH, append_cons.
Qed.

Lemma before_query_append a b : before_query (a +:+ "?" +:+ b) = before_query a.
Proof.
  induction a as [|c a IH]; [done|]. rewrite append_cons. simpl.
  destruct (Ascii.eqb c "?"); [done|]. by rewrite IH.
Qed.

(** [isJavaScript] looks at the URL only up to its first question mark and
    ignores the case of the URL and of the content type. *)
Theorem isJavaScript_ignores_query_and_case url query contentType :
  isJavaScript (url +:+ "?" +:+ query) contentType = isJavaScript url contentType ∧
  isJavaScript (toLowerCase url) (toLowerCase contentType)
  = isJavaScript url contentType.
Proof.
  unfold isJavaScript. split.
  - rewrite !toLowerCase_append.
    change (toLowerCase "?") with "?". by rewrite before_query_append.
  - by rewrite !toLowerCase_idempotent.
Qed.
End helpers.

(** ** The properties above at concrete inputs *)

Section more_examples.
Import Normalizer Differ Storage Monitor Examples Fixtures.

Lemma calculateStats_agrees_with_changes_witness :
  additions (calculateStats terminated_diff "a" "b")
  = length (extractChanges terminated_diff).1 ∧
  deletions (calculateStats terminated_diff "a" "b")
  = length (extractChanges terminated_diff).2.
Proof.
  apply (calculateStats_agrees_with_changes terminated_diff "a" "b").
  repeat constructor.
Defined.

Lemma store_scanned_reachable : reachable example_hash example_dir store_scanned.
Proof. unfold store_scanned. apply reach_scan, store_a_reachable. Qed.

Lemma target_rows_counts_witness :
  let row := MkTargetRow (MkTarget 1 "a.com" 1 (Some 9)) 1 1 (Some 9) in
  (∃ domain, targets (db store_scanned) !! domain = Some (row_target row)) ∧
  last_scan row = t_lastScan (row_target row) ∧
  script_count row
  = length (List.filter (λ script, s_targetId script =? t_id (row_target row))
                        (map_to_list (scripts (db store_scanned))).*2) ∧
  scan_count row
  = 10 `min`
    length (List.filter (λ s, scan_targetId s =? t_id (row_target row))
                        (scans (db store_scanned))).
Proof.
  apply (target_rows_counts store_scanned).
  vm_compute. apply elem_of_cons. by left.
Defined.

Lemma createScan_spec_witness :
  let c := createScan 9 1 "https://a.com" 1 1 store_a in
  c.1 = next_scan (nextId (db store_a)) ∧
  scans (db c.2) = scans (db store_a) ++ [MkScan c.1 1 "https://a.com" 9 1 1] ∧
  (∀ d, targets (db c.2) !! d
        = (λ t, if t_id t =? 1 then set_lastScan 9 t else t)
          <$> targets (db store_a) !! d) ∧
  scripts (db c.2) = scripts (db store_a) ∧
  scriptVersions (db c.2) = scriptVersions (db store_a) ∧
  files c.2 = files store_a.
Proof.
  apply (createScan_spec example_hash example_dir store_a 9 1 "https://a.com" 1 1).
  apply store_a_reachable.
Defined.

Lemma scan_ids_increase_witness :
  StronglySorted lt (scan_id <$> scans (db store_scanned)) ∧
  Forall (λ i, i < next_scan (nextId (db store_scanned)))
         (scan_id <$> scans (db store_scanned)).
Proof.
  apply (scan_ids_increase example_hash example_dir store_scanned).
  apply store_scanned_reachable.
Defined.

Lemma metadata_is_saved_witness : disk store_scanned = db store_scanned.
Proof.
  apply (metadata_is_saved example_hash example_dir store_scanned).
  apply store_scanned_reachable.
Defined.

Lemma store_main_built : built example_hash example_dir store_main.
Proof. unfold store_main. apply built_store, built_empty. Qed.

Lemma store_main_versions : versions_of store_main 1 = [version_main].
Proof. by vm_compute. Qed.

Lemma storeScript_then_getVersionContent_witness :
  let c := storeScript example_hash 7 1 2 second_build
             (normalize example_parse main_2) store_main in
  getVersionContent c.2 (versionId c.1)
  = Some (MkVersion (versionId c.1) (scriptId c.1) 2 (contentHash c.1)
                    (contentPath example_dir (versionId c.1)) 4 main_2 7,
          Some "bar(").
Proof.
  apply (storeScript_then_getVersionContent example_hash example_dir 7 1 2
           second_build (normalize example_parse main_2) store_main).
  - apply built_reachable, store_main_built.
  - reflexivity.
Defined.

Lemma storeScript_then_getPreviousVersion_witness :
  let c := storeScript example_hash 7 1 2 second_build
             (normalize example_parse main_2) store_main in
  (versions_of store_main (scriptId c.1) = [] →
   getPreviousVersion c.2 (scriptId c.1) (versionId c.1) = None) ∧
  (∀ prev,
     prev ∈ versions_of store_main (scriptId c.1) →
     (∀ v, v ∈ versions_of store_main (scriptId c.1) → v_id v ≤ v_id prev) →
     getPreviousVersion c.2 (scriptId c.1) (versionId c.1)
     = (λ content, (prev, content)) <$> files store_main !! v_contentFile prev).
Proof.
  apply (storeScript_then_getPreviousVersion example_hash example_dir 7 1 2
           second_build (normalize example_parse main_2) store_main).
  - apply built_reachable, store_main_built.
  - reflexivity.
Defined.

Lemma content_files_match_hashes_witness :
  ∃ content, files store_main !! v_contentFile version_main = Some content ∧
             example_hash content = v_contentHash version_main.
Proof.
  apply (content_files_match_hashes example_hash example_dir store_main "1"
           [version_main] version_main).
  - apply store_main_built.
  - reflexivity.
  - apply elem_of_cons. by left.
Defined.

Lemma scan_step_diffs_against_latest_witness :
  ∃ content,
    files store_main !! v_contentFile version_main = Some content ∧
    example_hash content = v_contentHash version_main ∧
    let r := process_script example_parse example_hash example_format
                            example_diffLines 7 1 2 second_build store_main in
    sr_isNew r.1.1 = false ∧
    sr_hasNewVersion r.1.1 = true ∧
    sr_diff r.1.1
    = Some (stats (Differ.diff example_format example_diffLines true content "bar(")) ∧
    ce_stats <$> r.1.2 = sr_diff r.1.1.
Proof.
  apply (scan_step_diffs_against_latest example_parse example_hash example_format
           example_diffLines example_dir 7 1 2 second_build store_main
           script_main version_main).
  - apply store_main_built.
  - reflexivity.
  - change (s_id script_main) with 1. rewrite store_main_versions.
    apply elem_of_cons. by left.
  - change (s_id script_main) with 1. rewrite store_main_versions.
    intros v ->%list_elem_of_singleton. reflexivity.
  - change (s_id script_main) with 1. rewrite store_main_versions.
    intros v ->%list_elem_of_singleton. discriminate.
Defined.
End more_examples.

(** ** More reads *)

Section more_reads.
Import Regex Normalizer Storage Monitor.

(** [getScriptWithContent] returns nothing exactly when no script record has
    the id.  In a store built through the operations it returns the record
    with that id; without versions the record comes alone, and otherwise it
    comes with the hash, size and timestamp of a version of the script whose
    timestamp no other version exceeds, and with the content of that
    version's file if the file is present. *)
Theorem getScriptWithContent_spec hashContent dir st scriptId :
  reachable hashContent dir st →
  match getScriptWithContent st scriptId with
  | None => ∀ k s, scripts (db st) !! k = Some s → s_id s ≠ scriptId
  | Some (script, latest) =>
      (∃ k, scripts (db st) !! k = Some script) ∧ s_id script = scriptId ∧
      match latest with
      | None => versions_of st scriptId = []
      | Some lc =>
          ∃ v, v ∈ versions_of st scriptId ∧
               (∀ v', v' ∈ versions_of st scriptId → v_timestamp v' ≤ v_timestamp v) ∧
               lc = MkLatest (files st !! v_contentFile v) (v_contentHash v)
                             (v_size v) (v_timestamp v)
      end
  end.
Proof.
  intros Hreach. pose proof (reachable_wf _ _ _ Hreach) as Hwf.
  unfold getScriptWithContent.
  destruct (List.find _ (map_to_list (scripts (db st)))) as [[k script]|] eqn:Hf.
  - apply find_some in Hf as [Hin Hid]. simpl in Hid. apply Nat.eqb_eq in Hid.
    apply list_elem_of_In, elem_of_map_to_list in Hin.
    unfold getScriptVersions.
    pose proof (sort_sorted by_timestamp_desc v_timestamp by_timestamp_desc_spec
                  (versions_of st scriptId)) as Hs.
    pose proof (sort_perm by_timestamp_desc (versions_of st scriptId)) as Hp.
    destruct (sort by_timestamp_desc (versions_of st scriptId)) as [|v l] eqn:Hsort.
    + split_and!; [by exists k|done|]. by apply Permutation_nil_l in Hp.
    + split_and!; [by exists k|done|].
      assert (v ∈ versions_of st scriptId) as Hv.
      { rewrite <- Hp. apply elem_of_cons. by left. }
      exists v. split_and!; [done| |].
      * intros v' Hv'. rewrite <- Hp in Hv'.
        by apply (sorted_head_max v_timestamp (v :: l) v).
      * rewrite (wf_has_file st scriptId) by done.
        destruct (files st !! v_contentFile v) eqn:Hc.
        -- by rewrite bool_decide_eq_true_2.
        -- by destruct (bool_decide _).
  - intros k s Hs Hid.
    eapply find_none in Hf; [|by apply list_elem_of_In, elem_of_map_to_list].
    simpl in Hf. apply Nat.eqb_neq in Hf. done.
Qed.



(** A domain that is removed and registered again gets the current value of
    the target counter as its id, which is larger than the id it had: ids
    are not reused. *)
Theorem removed_target_gets_new_id hashContent dir st unlinkSync now domain t :
  reachable hashContent dir st →
  targets (db st) !! domain = Some t →
  let again := getOrCreateTarget now domain (removeTarget unlinkSync domain st).2 in
  again.1 = Own (MkTarget (next_target (nextId (db st))) domain now None) ∧
  t_id t < next_target (nextId (db st)).
Proof.
  intros Hreach Ht again. subst again.
  pose proof (reachable_wf _ _ _ Hreach) as Hwf.
  destruct (removeTarget_known unlinkSync st domain t Hwf Ht)
    as (ss' & vss' & f' & -> & _).
  unfold getOrCreateTarget, lookup_target. cbn [snd saveDb db targets].
  rewrite lookup_delete_eq, (wf_own st Hwf _ _ Ht).
  split; [done|]. by eapply wf_targets.
Qed.

End more_reads.

(** ** The file name of a normalised URL *)

Section file_name.
Import Regex Normalizer.

Lemma append_empty_r (a : string) : a +:+ "" = a.
Proof. induction a as [|c a IH]; [done|]. by rewrite append_cons, IH. Qed.

Lemma rev_app_append a b : String.rev_app a b = String.rev_app a "" +:+ b.
Proof.
  revert b. induction a as [|c a IH]; intros b; [done|]. simpl.
  rewrite (IH (String c b)), (IH (String c "")).
  by rewrite append_assoc.
Qed.

Lemma string_forall_append p a b :
  string_forall p (a +:+ b) = string_forall p a && string_forall p b.
Proof.
  induction a as [|c a IH]; [done|]. rewrite append_cons. simpl.
  by rewrite IH, andb_assoc.
Qed.

Lemma last_segment_go_spec acc s :
  string_forall not_slash (String.rev acc) = true →
  string_forall not_slash (last_segment_go acc s) = true ∧
  ∃ pre, String.rev acc +:+ s = pre +:+ last_segment_go acc s ∧
         (pre = "" ∨ ∃ q, pre = q +:+ "/").
Proof.
  revert acc. induction s as [|c s IH]; intros acc Hacc.
  - simpl. split; [done|]. exists "". rewrite append_empty_r. by split; [|left].
  - destruct (Ascii.eqb_spec c "/") as [->|Hne].
    + cbn [last_segment_go].
      destruct (IH "" eq_refl) as [Hno (pre & Hpre & Hend)]. split; [done|].
      change (String.rev "" +:+ s) with s in Hpre.
      exists (String.rev acc +:+ String "/" pre). split.
      * by rewrite append_assoc, append_cons, <- Hpre.
      * right. destruct Hend as [->|[q ->]].
        -- by exists (String.rev acc).
        -- exists (String.rev acc +:+ String "/" q).
           by rewrite append_assoc, append_cons.
    + assert (last_segment_go acc (String c s) = last_segment_go (String c acc) s)
        as Heq.
      { destruct c as [[] [] [] [] [] [] [] []]; done. }
      assert (String.rev (String c acc) = String.rev acc +:+ String c "") as Hrev.
      { unfold String.rev. simpl. by rewrite rev_app_append. }
      destruct (IH (String c acc)) as [Hno (pre & Hpre & Hend)].
      { rewrite Hrev, string_forall_append, Hacc. simpl.
        unfold not_slash. by rewrite (proj2 (Ascii.eqb_neq _ _) Hne). }
      rewrite Heq. split; [done|]. exists pre. split; [|done].
      by rewrite <- Hpre, Hrev, append_assoc.
Qed.

(** For a URL that parses, the [filename] of [normalize] is the part of the
    normalised path after its last slash: it holds no slash, and the path is
    the file name alone or a prefix ending in a slash followed by it.  For a
    URL that does not parse, [filename] is the whole input, slashes
    included. *)
Theorem normalize_filename_last_segment parse url :
  let info := normalize parse url in
  match parse url with
  | Some _ =>
      string_forall not_slash (filename info) = true ∧
      ∃ pre, pathname info = pre +:+ filename info ∧
             (pre = "" ∨ ∃ q, pre = q +:+ "/")
  | None => filename info = url
  end.
Proof.
  intros info. subst info. unfold normalize.
  destruct (parse url) as [parsed|]; [|done].
  cbn [normalize_parsed filename pathname]. unfold last_segment.
  by apply (last_segment_go_spec "").
Qed.
End file_name.

Section more_read_examples.
Import Regex Normalizer Storage Monitor Examples Fixtures.

Lemma getScriptWithContent_spec_witness :
  match getScriptWithContent store_main 1 with
  | None => ∀ k s, scripts (db store_main) !! k = Some s → s_id s ≠ 1
  | Some (script, latest) =>
      (∃ k, scripts (db store_main) !! k = Some script) ∧ s_id script = 1 ∧
      match latest with
      | None => versions_of store_main 1 = []
      | Some lc =>
          ∃ v, v ∈ versions_of store_main 1 ∧
               (∀ v', v' ∈ versions_of store_main 1 → v_timestamp v' ≤ v_timestamp v) ∧
               lc = MkLatest (files store_main !! v_contentFile v) (v_contentHash v)
                             (v_size v) (v_timestamp v)
      end
  end.
Proof.
  apply (getScriptWithContent_spec example_hash example_dir store_main 1).
  apply built_reachable, store_main_built.
Defined.

Lemma removed_target_gets_new_id_witness :
  let again :=
    getOrCreateTarget 20 "a.com" (removeTarget (λ _, true) "a.com" store_a).2 in
  again.1 = Own (MkTarget (next_target (nextId (db store_a))) "a.com" 20 None) ∧
  1 < next_target (nextId (db store_a)).
Proof.
  apply (removed_target_gets_new_id example_hash example_dir store_a (λ _, true)
           20 "a.com" (MkTarget 1 "a.com" 1 None)).
  - apply store_a_reachable.
  - reflexivity.
Defined.
End more_read_examples.
